(** * AudioStreamer: streaming PCM16 playback scheduler

    A shallow embedding of [src/app/livebot/lib/audio-streamer.ts].

    The class is single threaded: every method and every callback (timer,
    [onended] of a buffer source, continuation of an [async] method) runs to
    its end before the next one starts.  The embedding is therefore a
    deterministic transition function [step] on a state holding the fields
    of the object together with the part of the browser the class talks to:
    the buffer sources handed to the audio device, the table of window
    timers, the worklet registry of the audio context and counters for the
    calls of [onComplete] and [console.error].

    - [context.currentTime] only changes between tasks of the event loop, so
      each transition takes the clock reading [now] as an argument.
    - Clock values are rationals.  Samples are rationals too: an int16
      divided by 32768 is a dyadic number that a Float32 holds exactly.
    - When a timer fires and when a source ends is up to the browser: both
      are events of a trace, like the calls of the methods.
    - [onComplete] is the caller's; it is taken not to call back into the
      streamer, and the embedding counts its calls.
    - The field [pushed] is not in the class: it records every frame handed
      to [audioQueue.push], so that statements can speak of the frames
      produced so far after the queue has been drained. *)

From Stdlib Require Import QArith Qminmax Lqa.
From stdpp Require Import gmap strings list.

Local Open Scope nat_scope.

(** ** Typed arrays and the PCM decoder *)

(** A [Uint8Array] is a window of [length] bytes starting at [byteOffset]
    in an underlying [ArrayBuffer]. *)
Module Uint8Array.
Record t : Type := mk {
  buffer : list Byte.byte;
  byteOffset : nat;
  length : nat
}.

(** The window lies inside the buffer (guaranteed by the constructor). *)
Definition wf (chunk : t) : Prop :=
  byteOffset chunk + length chunk <= List.length (buffer chunk).

(** The bytes the array itself shows: [chunk[0]], [chunk[1]], ... *)
Definition bytes (chunk : t) : list Byte.byte :=
  take (length chunk) (drop (byteOffset chunk) (buffer chunk)).

(** [new Uint8Array(bs)]: a fresh buffer viewed from its first byte. *)
Definition of_bytes (bs : list Byte.byte) : t := mk bs 0 (List.length bs).
End Uint8Array.

(** A [Float32Array] is its sequence of elements. *)
Abbreviation Float32Array := (list Q).

Definition byteZ (b : Byte.byte) : Z := Z.of_N (Byte.to_N b).

(** Two's complement reading of a 16-bit pattern. *)
Definition toInt16 (u : Z) : Z :=
  if (u <? 32768)%Z then u else (u - 65536)%Z.

(** [dataView.getInt16(byteOffset, true)]; [None] is the [RangeError] raised
    when the two bytes are not both inside the view. *)
Definition getInt16 (dataView : list Byte.byte) (byteOffset : nat) : option Z :=
  match dataView !! byteOffset, dataView !! S byteOffset with
  | Some lo, Some hi => Some (toInt16 (byteZ lo + 256 * byteZ hi))
  | _, _ => None
  end.

(** [int16 / 32768] *)
Definition normalize (int16 : Z) : Q := (inject_Z int16 / 32768)%Q.

(** Body of the decoding loop: the accumulator is the array being filled
    and the number of errors caught and logged.  A store past the end of a
    typed array is dropped, which is what list insertion does. *)
Definition decodeStep (dataView : list Byte.byte)
    (acc : Float32Array * nat) (i : nat) : Float32Array * nat :=
  match getInt16 dataView (i * 2) with
  | Some int16 => (<[i := normalize int16]> acc.1, acc.2)
  | None => (acc.1, S acc.2)
  end.

(** The indices [i = 0, 1, ...] with [i < chunk.length / 2], the division
    being exact: there are [ceil(length / 2)] of them. *)
Definition decodeIndices (chunk : Uint8Array.t) : list nat :=
  seq 0 (Nat.div2 (S (Uint8Array.length chunk))).

(** Lines 78-91 of [addPCM16].  [new Float32Array(chunk.length / 2)]
    truncates its argument; the [DataView] covers the whole underlying
    buffer of the chunk, from the buffer's first byte. *)
Definition decodePCM16 (chunk : Uint8Array.t) : Float32Array * nat :=
  fold_left (decodeStep (Uint8Array.buffer chunk))
            (decodeIndices chunk)
            (replicate (Uint8Array.length chunk / 2) 0%Q, 0).

(** What the bytes of a chunk mean as 16-bit little-endian PCM: one sample
    per complete pair, a trailing odd byte dropped. *)
Fixpoint pcm16Samples (bs : list Byte.byte) : Float32Array :=
  match bs with
  | lo :: hi :: rest =>
      normalize (toInt16 (byteZ lo + 256 * byteZ hi)) :: pcm16Samples rest
  | _ => []
  end.

(** ** The browser side *)

(** A buffer source that was started.  [onended] tells whether the
    end-of-queue closure is still installed on it, [ended] whether the device
    has already delivered its [ended] event. *)
Record AudioBufferSourceNode : Type := mkSource {
  buffer : Float32Array;
  startTime : Q;
  onended : bool;
  ended : bool;
  gainInput : nat;
  workletInputs : list nat
}.

Definition disarm (src : AudioBufferSourceNode) : AudioBufferSourceNode :=
  mkSource (buffer src) (startTime src) false (ended src)
           (gainInput src) (workletInputs src).

Definition markEnded (src : AudioBufferSourceNode) : AudioBufferSourceNode :=
  mkSource (buffer src) (startTime src) (onended src) true
           (gainInput src) (workletInputs src).

(** The three closures the class hands to [setInterval] and [setTimeout]. *)
Inductive TimerHandler : Type :=
  | PollForData      (* the [setInterval] callback of [scheduleNextBuffer] *)
  | Reschedule       (* [() => this.scheduleNextBuffer()] *)
  | RebuildGain.     (* the [setTimeout] callback of [stop] *)

Record Timer : Type := mkTimer {
  timerId : nat;
  timerHandler : TimerHandler;
  timerDelay : Q          (* milliseconds *)
}.

(** Automation calls on the [gain] parameter of a gain node. *)
Inductive GainEvent : Type :=
  | LinearRampToZero (node : nat) (endTime : Q)
  | SetValueOne (node : nat) (time : Q).

(** Handlers and nodes are compared by identity only: a number each. *)
Definition MessageHandler : Type := nat.

Record WorkletGraph : Type := mkGraph {
  handlers : list MessageHandler;
  node : option nat
}.

(** ** The object *)

Record AudioStreamer : Type := mkStreamer {
  audioQueue : list Float32Array;
  isPlaying : bool;
  processingBuffer : Float32Array;
  scheduledTime : Q;
  gainNode : nat;
  isStreamComplete : bool;
  checkInterval : option nat;
  endOfQueueAudioSource : option nat;
  (* the browser *)
  started : list AudioBufferSourceNode;
  timers : list Timer;
  nextTimerId : nat;
  gainEvents : list GainEvent;
  registeredWorklets : option (gmap string WorkletGraph);
  (* observations *)
  onCompleteCalls : nat;
  consoleErrors : nat;
  pushed : list Float32Array
}.

Definition sampleRate : Q := 24000%Q.
Definition bufferSize : nat := Z.to_nat 7680.
Definition initialBufferTime : Q := 0.1%Q.
Definition SCHEDULE_AHEAD_TIME : Q := 0.2%Q.

(** [new AudioStreamer(context)] on a context with no timers pending. *)
Definition construct : AudioStreamer :=
  mkStreamer [] false [] 0%Q 0 false None None [] [] 1 [] None 0 0 [].

(** Field assignments [this.f = v]. *)
Definition with_audioQueue (v : list Float32Array)
    (s : AudioStreamer) : AudioStreamer :=
  mkStreamer v (isPlaying s) (processingBuffer s) (scheduledTime s)
    (gainNode s) (isStreamComplete s) (checkInterval s)
    (endOfQueueAudioSource s) (started s) (timers s) (nextTimerId s)
    (gainEvents s) (registeredWorklets s) (onCompleteCalls s)
    (consoleErrors s) (pushed s).

Definition with_isPlaying (v : bool)
    (s : AudioStreamer) : AudioStreamer :=
  mkStreamer (audioQueue s) v (processingBuffer s) (scheduledTime s)
    (gainNode s) (isStreamComplete s) (checkInterval s)
    (endOfQueueAudioSource s) (started s) (timers s) (nextTimerId s)
    (gainEvents s) (registeredWorklets s) (onCompleteCalls s)
    (consoleErrors s) (pushed s).

Definition with_processingBuffer (v : Float32Array)
    (s : AudioStreamer) : AudioStreamer :=
  mkStreamer (audioQueue s) (isPlaying s) v (scheduledTime s) (gainNode s)
    (isStreamComplete s) (checkInterval s) (endOfQueueAudioSource s)
    (started s) (timers s) (nextTimerId s) (gainEvents s)
    (registeredWorklets s) (onCompleteCalls s) (consoleErrors s) (pushed s).

Definition with_scheduledTime (v : Q)
    (s : AudioStreamer) : AudioStreamer :=
  mkStreamer (audioQueue s) (isPlaying s) (processingBuffer s) v
    (gainNode s) (isStreamComplete s) (checkInterval s)
    (endOfQueueAudioSource s) (started s) (timers s) (nextTimerId s)
    (gainEvents s) (registeredWorklets s) (onCompleteCalls s)
    (consoleErrors s) (pushed s).

Definition with_gainNode (v : nat)
    (s : AudioStreamer) : AudioStreamer :=
  mkStreamer (audioQueue s) (isPlaying s) (processingBuffer s)
    (scheduledTime s) v (isStreamComplete s) (checkInterval s)
    (endOfQueueAudioSource s) (started s) (timers s) (nextTimerId s)
    (gainEvents s) (registeredWorklets s) (onCompleteCalls s)
    (consoleErrors s) (pushed s).

Definition with_isStreamComplete (v : bool)
    (s : AudioStreamer) : AudioStreamer :=
  mkStreamer (audioQueue s) (isPlaying s) (processingBuffer s)
    (scheduledTime s) (gainNode s) v (checkInterval s)
    (endOfQueueAudioSource s) (started s) (timers s) (nextTimerId s)
    (gainEvents s) (registeredWorklets s) (onCompleteCalls s)
    (consoleErrors s) (pushed s).

Definition with_checkInterval (v : option nat)
    (s : AudioStreamer) : AudioStreamer :=
  mkStreamer (audioQueue s) (isPlaying s) (processingBuffer s)
    (scheduledTime s) (gainNode s) (isStreamComplete s) v
    (endOfQueueAudioSource s) (started s) (timers s) (nextTimerId s)
    (gainEvents s) (registeredWorklets s) (onCompleteCalls s)
    (consoleErrors s) (pushed s).

Definition with_endOfQueueAudioSource (v : option nat)
    (s : AudioStreamer) : AudioStreamer :=
  mkStreamer (audioQueue s) (isPlaying s) (processingBuffer s)
    (scheduledTime s) (gainNode s) (isStreamComplete s) (checkInterval s) v
    (started s) (timers s) (nextTimerId s) (gainEvents s)
    (registeredWorklets s) (onCompleteCalls s) (consoleErrors s) (pushed s).

Definition with_started (v : list AudioBufferSourceNode)
    (s : AudioStreamer) : AudioStreamer :=
  mkStreamer (audioQueue s) (isPlaying s) (processingBuffer s)
    (scheduledTime s) (gainNode s) (isStreamComplete s) (checkInterval s)
    (endOfQueueAudioSource s) v (timers s) (nextTimerId s) (gainEvents s)
    (registeredWorklets s) (onCompleteCalls s) (consoleErrors s) (pushed s).

Definition with_timers (v : list Timer)
    (s : AudioStreamer) : AudioStreamer :=
  mkStreamer (audioQueue s) (isPlaying s) (processingBuffer s)
    (scheduledTime s) (gainNode s) (isStreamComplete s) (checkInterval s)
    (endOfQueueAudioSource s) (started s) v (nextTimerId s) (gainEvents s)
    (registeredWorklets s) (onCompleteCalls s) (consoleErrors s) (pushed s).

Definition with_nextTimerId (v : nat)
    (s : AudioStreamer) : AudioStreamer :=
  mkStreamer (audioQueue s) (isPlaying s) (processingBuffer s)
    (scheduledTime s) (gainNode s) (isStreamComplete s) (checkInterval s)
    (endOfQueueAudioSource s) (started s) (timers s) v (gainEvents s)
    (registeredWorklets s) (onCompleteCalls s) (consoleErrors s) (pushed s).

Definition with_gainEvents (v : list GainEvent)
    (s : AudioStreamer) : AudioStreamer :=
  mkStreamer (audioQueue s) (isPlaying s) (processingBuffer s)
    (scheduledTime s) (gainNode s) (isStreamComplete s) (checkInterval s)
    (endOfQueueAudioSource s) (started s) (timers s) (nextTimerId s) v
    (registeredWorklets s) (onCompleteCalls s) (consoleErrors s) (pushed s).

Definition with_registeredWorklets (v : option (gmap string WorkletGraph))
    (s : AudioStreamer) : AudioStreamer :=
  mkStreamer (audioQueue s) (isPlaying s) (processingBuffer s)
    (scheduledTime s) (gainNode s) (isStreamComplete s) (checkInterval s)
    (endOfQueueAudioSource s) (started s) (timers s) (nextTimerId s)
    (gainEvents s) v (onCompleteCalls s) (consoleErrors s) (pushed s).

Definition with_onCompleteCalls (v : nat)
    (s : AudioStreamer) : AudioStreamer :=
  mkStreamer (audioQueue s) (isPlaying s) (processingBuffer s)
    (scheduledTime s) (gainNode s) (isStreamComplete s) (checkInterval s)
    (endOfQueueAudioSource s) (started s) (timers s) (nextTimerId s)
    (gainEvents s) (registeredWorklets s) v (consoleErrors s) (pushed s).

Definition with_consoleErrors (v : nat)
    (s : AudioStreamer) : AudioStreamer :=
  mkStreamer (audioQueue s) (isPlaying s) (processingBuffer s)
    (scheduledTime s) (gainNode s) (isStreamComplete s) (checkInterval s)
    (endOfQueueAudioSource s) (started s) (timers s) (nextTimerId s)
    (gainEvents s) (registeredWorklets s) (onCompleteCalls s) v (pushed s).

Definition with_pushed (v : list Float32Array)
    (s : AudioStreamer) : AudioStreamer :=
  mkStreamer (audioQueue s) (isPlaying s) (processingBuffer s)
    (scheduledTime s) (gainNode s) (isStreamComplete s) (checkInterval s)
    (endOfQueueAudioSource s) (started s) (timers s) (nextTimerId s)
    (gainEvents s) (registeredWorklets s) (onCompleteCalls s)
    (consoleErrors s) v.

(** ** Window timers *)

(** [setInterval] and [setTimeout]: a fresh positive handle. *)
Definition setTimer (h : TimerHandler) (delay : Q)
    (s : AudioStreamer) : nat * AudioStreamer :=
  (nextTimerId s,
   with_nextTimerId (S (nextTimerId s))
     (with_timers (timers s ++ [mkTimer (nextTimerId s) h delay]) s)).

(** [clearInterval] *)
Definition clearTimer (id : nat) (s : AudioStreamer) : AudioStreamer :=
  with_timers (filter (fun t => timerId t <> id) (timers s)) s.

(** ** Frame assembly: lines 93-104 of [addPCM16] *)

(** [this.audioQueue.push(frame)]; [pushed] keeps every frame ever pushed. *)
Definition push (frame : Float32Array) (s : AudioStreamer) : AudioStreamer :=
  with_pushed (pushed s ++ [frame])
    (with_audioQueue (audioQueue s ++ [frame]) s).

(** One turn of [while (processingBuffer.length >= bufferSize)]. *)
Definition sliceStep (s : AudioStreamer) : option AudioStreamer :=
  if bufferSize <=? length (processingBuffer s) then
    Some (with_processingBuffer (drop bufferSize (processingBuffer s))
            (push (take bufferSize (processingBuffer s)) s))
  else None.

Fixpoint sliceLoop (fuel : nat) (s : AudioStreamer) : AudioStreamer :=
  match fuel with
  | 0 => s
  | S fuel' =>
      match sliceStep s with
      | Some s' => sliceLoop fuel' s'
      | None => s
      end
  end.

(** Every turn removes [bufferSize > 0] samples, so the length of the
    buffer bounds the number of turns. *)
Definition sliceFrames (s : AudioStreamer) : AudioStreamer :=
  sliceLoop (length (processingBuffer s)) s.

(** ** The lookahead scheduler *)

(** [audioBuffer.duration] of [createAudioBuffer(audioData)] *)
Definition duration (audioData : Float32Array) : Q :=
  (inject_Z (Z.of_nat (length audioData)) / sampleRate)%Q.

(** The worklet nodes a new source is connected to: the registered graphs
    that have a node. *)
Definition workletNodes (s : AudioStreamer) : list nat :=
  match registeredWorklets s with
  | Some worklets => omap (fun entry => node entry.2) (map_to_list worklets)
  | None => []
  end.

(** One turn of the [while] loop of [scheduleNextBuffer]; [None] when the
    loop condition is false.  A source is named by its position in
    [started]. *)
Definition scheduleStep (now : Q) (s : AudioStreamer) : option AudioStreamer :=
  match audioQueue s with
  | [] => None
  | audioData :: rest =>
      if Qlt_le_dec (scheduledTime s) (now + SCHEDULE_AHEAD_TIME) then
        let source := length (started s) in
        let last := match rest with [] => true | _ => false end in
        let s1 := with_audioQueue rest s in
        let s2 :=
          if last then
            with_endOfQueueAudioSource (Some source)
              match endOfQueueAudioSource s1 with
              | Some old => with_started (alter disarm old (started s1)) s1
              | None => s1
              end
          else s1 in
        let startTime := Qmax (scheduledTime s2) now in
        let started' :=
          started s2 ++ [mkSource audioData startTime last false
                           (gainNode s2) (workletNodes s2)] in
        Some (with_scheduledTime (startTime + duration audioData)%Q
                (with_started started' s2))
      else None
  end.

Fixpoint scheduleLoop (fuel : nat) (now : Q) (s : AudioStreamer) : AudioStreamer :=
  match fuel with
  | 0 => s
  | S fuel' =>
      match scheduleStep now s with
      | Some s' => scheduleLoop fuel' now s'
      | None => s
      end
  end.

(** Lines 183-209: what follows the loop. *)
Definition rearm (now : Q) (s : AudioStreamer) : AudioStreamer :=
  match audioQueue s, processingBuffer s with
  | [], [] =>
      if isStreamComplete s then
        let s1 := with_isPlaying false s in
        match checkInterval s1 with
        | Some id => with_checkInterval None (clearTimer id s1)
        | None => s1
        end
      else
        match checkInterval s with
        | None =>
            let (id, s1) := setTimer PollForData 100%Q s in
            with_checkInterval (Some id) s1
        | Some _ => s
        end
  | _, _ =>
      let nextCheckTime := ((scheduledTime s - now) * 1000)%Q in
      (setTimer Reschedule (Qmax 0 (nextCheckTime - 50)) s).2
  end.

(** Every turn of the loop shifts one frame off the queue. *)
Definition scheduleNextBuffer (now : Q) (s : AudioStreamer) : AudioStreamer :=
  rearm now (scheduleLoop (length (audioQueue s)) now s).

(** ** Public methods *)

(** Lines 78-104 of [addPCM16]: decode the chunk, append the samples to
    the remainder buffer and slice off the full frames. *)
Definition ingest (chunk : Uint8Array.t) (s : AudioStreamer) : AudioStreamer :=
  let (float32Array, errors) := decodePCM16 chunk in
  let newBuffer := processingBuffer s ++ float32Array in
  sliceFrames
    (with_processingBuffer newBuffer
       (with_consoleErrors (consoleErrors s + errors) s)).

Definition addPCM16 (now : Q) (chunk : Uint8Array.t)
    (s : AudioStreamer) : AudioStreamer :=
  let s1 := ingest chunk s in
  if isPlaying s1 then s1
  else
    scheduleNextBuffer now
      (with_scheduledTime (now + initialBufferTime)%Q
         (with_isPlaying true s1)).

Definition stop (now : Q) (s : AudioStreamer) : AudioStreamer :=
  let s1 :=
    with_scheduledTime now
      (with_processingBuffer []
         (with_audioQueue []
            (with_isStreamComplete true (with_isPlaying false s)))) in
  let s2 :=
    match checkInterval s1 with
    | Some id => with_checkInterval None (clearTimer id s1)
    | None => s1
    end in
  let s3 :=
    with_gainEvents
      (gainEvents s2 ++ [LinearRampToZero (gainNode s2) (now + 0.1)%Q]) s2 in
  (setTimer RebuildGain 200%Q s3).2.

(** The part of [resume] after the device has confirmed; a rejection of
    [context.resume()] leaves the object as it was. *)
Definition resume (now : Q) (s : AudioStreamer) : AudioStreamer :=
  with_gainEvents (gainEvents s ++ [SetValueOne (gainNode s) now])
    (with_scheduledTime (now + initialBufferTime)%Q
       (with_isStreamComplete false s)).

(** [this.onComplete()]: the embedding counts the calls. *)
Definition fireOnComplete (s : AudioStreamer) : AudioStreamer :=
  with_onCompleteCalls (S (onCompleteCalls s)) s.

Definition complete (now : Q) (s : AudioStreamer) : AudioStreamer :=
  let s1 := with_isStreamComplete true s in
  match processingBuffer s1 with
  | [] => fireOnComplete s1
  | _ :: _ =>
      let s2 := with_processingBuffer [] (push (processingBuffer s1) s1) in
      if isPlaying s2 then scheduleNextBuffer now s2 else s2
  end.

(** ** Worklet registration *)

(** How the asynchronous part of [addWorklet] ends: the module loads and the
    node [worklet] is built, or one of the two steps throws. *)
Inductive LoadOutcome : Type :=
  | Loaded (worklet : nat)
  | LoadFailed.

(** How the promise returned by [addWorklet] settles. *)
Inductive Settled : Type :=
  | Resolved
  | Rejected.

(** The registry of a context is a plain object [{}]: besides the names
    stored in it, it answers to the property names every object inherits
    from [Object.prototype].  Reading one of those gives a function (the
    prototype itself for [__proto__]): a truthy value that has no
    [handlers]. *)
Definition inheritedNames : list string :=
  ["constructor"; "hasOwnProperty"; "isPrototypeOf"; "propertyIsEnumerable";
   "toLocaleString"; "toString"; "valueOf"; "__proto__";
   "__defineGetter__"; "__defineSetter__"; "__lookupGetter__";
   "__lookupSetter__"]%string.

Definition inheritedName (workletName : string) : bool :=
  existsb (String.eqb workletName) inheritedNames.

(** How the synchronous part of [addWorklet] ends. *)
Inductive Entered : Type :=
  | Loading          (* the name was entered; the call goes on to load *)
  | ReturnedThis     (* the handler was appended; the promise resolves *)
  | ThrewTypeError.  (* line 53 threw; the promise rejects *)

(** Lines 45-57, up to the first [await].  [workletsRecord[workletName]]
    is an entry of the registry, or else an inherited property: that one
    is truthy too, so line 53 runs and [.handlers.push] throws a
    [TypeError] on [undefined], outside the [try]. *)
Definition addWorkletEnter (workletName : string) (handler : MessageHandler)
    (s : AudioStreamer) : AudioStreamer * Entered :=
  let workletsRecord : gmap string WorkletGraph :=
    default ∅ (registeredWorklets s) in
  match workletsRecord !! workletName with
  | Some graph =>
      (with_registeredWorklets
         (Some (<[workletName := mkGraph (handlers graph ++ [handler])
                                         (node graph)]> workletsRecord)) s,
       ReturnedThis)
  | None =>
      if inheritedName workletName then
        (with_registeredWorklets (Some workletsRecord) s, ThrewTypeError)
      else
        (with_registeredWorklets
           (Some (<[workletName := mkGraph [handler] None]> workletsRecord)) s,
         Loading)
  end.

(** Lines 59-74, after the awaits.  It runs after line 57 has entered the
    name; were the name missing, [workletsRecord[workletName].node = ...]
    would throw inside the [try], unless the name is an inherited one, for
    which the store lands on the inherited function. *)
Definition addWorkletSettle (workletName : string) (outcome : LoadOutcome)
    (s : AudioStreamer) : AudioStreamer * Settled :=
  let workletsRecord : gmap string WorkletGraph :=
    default ∅ (registeredWorklets s) in
  match outcome with
  | Loaded worklet =>
      match workletsRecord !! workletName with
      | Some graph =>
          (with_registeredWorklets
             (Some (<[workletName := mkGraph (handlers graph) (Some worklet)]>
                      workletsRecord)) s,
           Resolved)
      | None =>
          if inheritedName workletName then (s, Resolved)
          else (with_consoleErrors (S (consoleErrors s)) s, Rejected)
      end
  | LoadFailed => (with_consoleErrors (S (consoleErrors s)) s, Rejected)
  end.

(** A call of [addWorklet] with nothing else running between its start and
    the settling of its promise. *)
Definition addWorklet (workletName : string) (handler : MessageHandler)
    (outcome : LoadOutcome) (s : AudioStreamer) : AudioStreamer * Settled :=
  let (s1, entered) := addWorkletEnter workletName handler s in
  match entered with
  | Loading => addWorkletSettle workletName outcome s1
  | ReturnedThis => (s1, Resolved)
  | ThrewTypeError => (s1, Rejected)
  end.

(** ** Callbacks *)

(** The timer [id] fires.  A timeout leaves the table before its callback
    runs, an interval stays. *)
Definition timerFired (now : Q) (id : nat) (s : AudioStreamer) : AudioStreamer :=
  match List.find (fun t => timerId t =? id) (timers s) with
  | None => s
  | Some t =>
      match timerHandler t with
      | PollForData =>
          if negb (length (audioQueue s) =? 0)
             || (bufferSize <=? length (processingBuffer s))
          then scheduleNextBuffer now s
          else s
      | Reschedule => scheduleNextBuffer now (clearTimer id s)
      | RebuildGain => with_gainNode (S (gainNode s)) (clearTimer id s)
      end
  end.

(** The device reports that the source [id] has finished playing; it does so
    once per source.  Lines 140-148 are the handler. *)
Definition sourceEnded (id : nat) (s : AudioStreamer) : AudioStreamer :=
  match started s !! id with
  | None => s
  | Some src =>
      if ended src then s
      else
        let s1 := with_started (<[id := markEnded src]> (started s)) s in
        if onended src
           && (length (audioQueue s1) =? 0)
           && bool_decide (endOfQueueAudioSource s1 = Some id)
        then fireOnComplete (with_endOfQueueAudioSource None s1)
        else s1
  end.

(** ** Traces *)

Inductive Event : Type :=
  | AddPCM16 (chunk : Uint8Array.t)
  | Complete
  | Stop
  | Resume
  | AddWorkletEnter (workletName : string) (handler : MessageHandler)
  | AddWorkletSettle (workletName : string) (outcome : LoadOutcome)
  | TimerFired (id : nat)
  | SourceEnded (id : nat).

Definition step (now : Q) (e : Event) (s : AudioStreamer) : AudioStreamer :=
  match e with
  | AddPCM16 chunk => addPCM16 now chunk s
  | Complete => complete now s
  | Stop => stop now s
  | Resume => resume now s
  | AddWorkletEnter workletName handler =>
      (addWorkletEnter workletName handler s).1
  | AddWorkletSettle workletName outcome =>
      (addWorkletSettle workletName outcome s).1
  | TimerFired id => timerFired now id s
  | SourceEnded id => sourceEnded id s
  end.

(** A trace lists what happens to the object, each entry with the clock
    reading at that moment, oldest first. *)
Definition run (trace : list (Q * Event)) (s : AudioStreamer) : AudioStreamer :=
  fold_left (fun s te => step te.1 te.2 s) trace s.

(** Samples decoded by one event. *)
Definition decodedBy (e : Event) : Float32Array :=
  match e with
  | AddPCM16 chunk => (decodePCM16 chunk).1
  | _ => []
  end.

(** The samples decoded along a trace, in order. *)
Definition decodedSamples (trace : list (Q * Event)) : Float32Array :=
  concat (map (fun te => decodedBy te.2) trace).

Definition noStop (trace : list (Q * Event)) : Prop :=
  Forall (fun te => te.2 <> Stop) trace.

(** ** Notions used in the statements *)

(** Number of samples the chunks of a trace hold: one per complete pair of
    bytes. *)
Definition decodedCount (trace : list (Q * Event)) : nat :=
  list_sum (map (fun te =>
                   match te.2 with
                   | AddPCM16 chunk => Uint8Array.length chunk / 2
                   | _ => 0
                   end) trace).

(** [new Uint8Array(buffer, 2, 2)] over the four bytes [01 00 02 00]: the
    chunk is the single sample 2. *)
Definition offsetView : Uint8Array.t :=
  Uint8Array.mk [Byte.x01; Byte.x00; Byte.x02; Byte.x00] 2 2.

(** [7680 * 2] bytes, all zero. *)
Definition zeroChunk : Uint8Array.t :=
  Uint8Array.of_bytes (replicate (Z.to_nat 15360) Byte.x00).

(** Every frame pushed so far was handed to the device or still waits in
    the queue, in the order of pushing. *)
Definition accounted (s : AudioStreamer) : Prop :=
  pushed s = (buffer <$> started s) ++ audioQueue s.

(** The state the specification describes after one frame's worth of
    bytes was fed to an idle streamer: the frame waiting in the queue, the
    cursor at [now + 0.1]. *)
Definition oneFrameQueued (now : Q) (s' : AudioStreamer) : Prop :=
  (exists frame, audioQueue s' = [frame] /\ length frame = bufferSize)
  /\ processingBuffer s' = []
  /\ isPlaying s' = true
  /\ (scheduledTime s' == now + initialBufferTime)%Q.

(** The clock readings of a trace do not go back. *)
Fixpoint clockOrdered (t0 : Q) (trace : list (Q * Event)) : Prop :=
  match trace with
  | [] => True
  | te :: rest => (t0 <= te.1)%Q /\ clockOrdered te.1 rest
  end.

(** The specification's reading: no method or callback other than
    [resume] and [stop] ever moves the cursor back. *)
Definition cursorResetOnlyByResumeStop : Prop :=
  forall trace now e,
    clockOrdered 0 (trace ++ [(now, e)]) ->
    e <> Stop -> e <> Resume ->
    (scheduledTime (run trace construct)
     <= scheduledTime (step now e (run trace construct)))%Q.


(** Any call or callback but [addPCM16]. *)
Definition notAddPCM16 (e : Event) : Prop :=
  match e with AddPCM16 _ => False | _ => True end.

(** The specification's reading: after [stop()] no poll or re-arm timer is
    left armed; what remains in the timer table is the timeout [stop]
    itself sets for rebuilding the gain stage. *)
Definition stopCancelsEveryTimer : Prop :=
  forall trace now,
    Forall (fun t => timerHandler t = RebuildGain)
           (timers (stop now (run trace construct))).

(** The source [id] has a live completion hook: the closure is installed on
    it and it has not ended yet. *)
Definition armed (s : AudioStreamer) (id : nat) : Prop :=
  exists src,
    started s !! id = Some src /\ onended src = true /\ ended src = false.

(** Only the source named by the marker field has a live hook. *)
Definition markerInvariant (s : AudioStreamer) : Prop :=
  forall id, armed s id -> endOfQueueAudioSource s = Some id.

(** [registeredWorklets.get(this.context)], an absent record read as the
    empty one. *)
Definition registry (s : AudioStreamer) : gmap string WorkletGraph :=
  default ∅ (registeredWorklets s).

(** The specification's reading: a failed load leaves no entry for the
    name. *)
Definition failedLoadLeavesNoEntry : Prop :=
  forall workletName handler s,
    registry s !! workletName = None ->
    registry (addWorklet workletName handler LoadFailed s).1 !! workletName
    = None.

(** ** Notions used in the further properties *)

(** A sample as the decoder can produce it: in [[-1, 1)]. *)
Definition inRange (x : Q) : Prop := (-1 <= x)%Q /\ (x < 1)%Q.

(** The number of errors the decoding loop catches for a chunk: one when
    the chunk is odd and spans its whole buffer. *)
Definition decodeFaults (chunk : Uint8Array.t) : nat :=
  if Nat.odd (Uint8Array.length chunk)
     && (length (Uint8Array.buffer chunk) =? Uint8Array.length chunk)
  then 1 else 0.

(** A frame as the class produces it: not empty, at most [bufferSize]
    samples. *)
Definition frameOk (frame : Float32Array) : Prop :=
  0 < length frame <= bufferSize.

(** The remainder buffer is shorter than a frame and every frame, wherever
    it is, is a proper frame. *)
Definition buffersBounded (s : AudioStreamer) : Prop :=
  length (processingBuffer s) < bufferSize
  /\ Forall frameOk (audioQueue s)
  /\ Forall frameOk (buffer <$> started s)
  /\ Forall frameOk (pushed s).

(** A streamer that is not playing holds no audio. *)
Definition idleEmpty (s : AudioStreamer) : Prop :=
  isPlaying s = false -> audioQueue s = [] /\ processingBuffer s = [].

(** Start time and buffer of every started source, oldest first. *)
Definition slots (s : AudioStreamer) : list (Q * Float32Array) :=
  (fun src => (startTime src, buffer src)) <$> started s.

(** The slots follow one another without gap or overlap, the first one
    starting at [t]. *)
Fixpoint backToBack (t : Q) (new : list (Q * Float32Array)) : Prop :=
  match new with
  | [] => True
  | slot :: rest =>
      (slot.1 == t)%Q /\ backToBack (slot.1 + duration slot.2)%Q rest
  end.

(** The end of the last slot, or [cursor] when there is none. *)
Definition cursorAfter (cursor : Q) (new : list (Q * Float32Array)) : Q :=
  fold_left (fun _ slot => (slot.1 + duration slot.2)%Q) new cursor.

(** A slot that starts inside the lookahead window of a drain at [now]. *)
Definition inWindow (now : Q) (slot : Q * Float32Array) : Prop :=
  (now <= slot.1)%Q /\ (slot.1 < now + SCHEDULE_AHEAD_TIME)%Q.

(** The timer table is coherent: handles are positive, distinct and below
    the next one to be given out, and the poll intervals in the table are
    exactly the one [checkInterval] names. *)
Definition timersWf (s : AudioStreamer) : Prop :=
  0 < nextTimerId s
  /\ NoDup (timerId <$> timers s)
  /\ Forall (fun t => 0 < timerId t < nextTimerId s) (timers s)
  /\ (forall t, t ∈ timers s -> timerHandler t = PollForData ->
                checkInterval s = Some (timerId t))
  /\ (forall id, checkInterval s = Some id ->
                 exists t, t ∈ timers s /\ timerId t = id
                           /\ timerHandler t = PollForData).

(** A timer whose callback runs the drain, at once or when data is there. *)
Definition drainTrigger (t : Timer) : Prop :=
  timerHandler t = PollForData \/ timerHandler t = Reschedule.

(** While the streamer is playing, a timer that will run the drain is
    pending. *)
Definition drainArmed (s : AudioStreamer) : Prop :=
  isPlaying s = true -> Exists drainTrigger (timers s).

(** Calls of [addWorklet] for one name that arrive while an earlier call
    for that name is still loading: each runs lines 45-57 only. *)
Definition enterAll (workletName : string) (later : list MessageHandler)
    (s : AudioStreamer) : AudioStreamer :=
  fold_left (fun s handler => (addWorkletEnter workletName handler s).1)
            later s.

(** Calls of [addWorklet] for one name, one after the other, each with its
    handler and the way its load would end. *)
Definition registerAll (workletName : string)
    (calls : list (MessageHandler * LoadOutcome))
    (s : AudioStreamer) : AudioStreamer :=
  fold_left (fun s call => (addWorklet workletName call.1 call.2 s).1)
            calls s.

(** ** Tactics for the fields a function leaves alone *)

Ltac unfold_ops :=
  unfold scheduleStep, rearm, setTimer, clearTimer, push, fireOnComplete in *.

Ltac frame_step :=
  let H := fresh in
  intros H; unfold_ops;
  repeat match type of H with
         | context [match ?x with _ => _ end] =>
             destruct x eqn:?; try discriminate
         end;
  injection H as <-; simpl; congruence.

Ltac frame_rearm :=
  unfold_ops;
  repeat match goal with
         | |- context [match ?x with _ => _ end] => destruct x eqn:?
         end;
  simpl; congruence.

(** * Properties *)

(** ** Loops *)

Lemma bufferSize_pos : 0 < bufferSize.
Proof. unfold bufferSize. lia. Qed.

Lemma bufferSize_value : bufferSize = Z.to_nat 7680.
Proof. reflexivity. Qed.

Global Opaque bufferSize.

(** What holds before a loop and is kept by every turn holds after it. *)
Lemma sliceLoop_invariant (P : AudioStreamer -> Prop) :
  (forall s s', sliceStep s = Some s' -> P s -> P s') ->
  forall fuel s, P s -> P (sliceLoop fuel s).
Proof.
  intros Hstep fuel. induction fuel as [|fuel IH]; intros s Hs; simpl.
  - exact Hs.
  - destruct (sliceStep s) as [s'|] eqn:E; [|exact Hs].
    apply IH. eapply Hstep; eassumption.
Qed.

Lemma scheduleLoop_invariant (P : AudioStreamer -> Prop) now :
  (forall s s', scheduleStep now s = Some s' -> P s -> P s') ->
  forall fuel s, P s -> P (scheduleLoop fuel now s).
Proof.
  intros Hstep fuel. induction fuel as [|fuel IH]; intros s Hs; simpl.
  - exact Hs.
  - destruct (scheduleStep now s) as [s'|] eqn:E; [|exact Hs].
    apply IH. eapply Hstep; eassumption.
Qed.

(** The turns of the two loops, spelled out. *)
Lemma sliceStep_Some s s' :
  sliceStep s = Some s' ->
  bufferSize <= length (processingBuffer s)
  /\ s' = with_processingBuffer (drop bufferSize (processingBuffer s))
            (push (take bufferSize (processingBuffer s)) s).
Proof.
  unfold sliceStep. destruct (Nat.leb_spec bufferSize (length (processingBuffer s)));
    intros [= <-]; auto.
Qed.

Lemma sliceStep_None s :
  sliceStep s = None <-> length (processingBuffer s) < bufferSize.
Proof.
  unfold sliceStep.
  destruct (Nat.leb_spec bufferSize (length (processingBuffer s))); split;
    intros; try discriminate; try lia; auto.
Qed.

(** The fuel of [sliceFrames] is enough: the loop stops because its
    condition is false. *)
Lemma sliceLoop_done fuel s :
  length (processingBuffer s) <= fuel ->
  sliceStep (sliceLoop fuel s) = None.
Proof.
  revert s. induction fuel as [|fuel IH]; intros s Hlen; simpl.
  - apply sliceStep_None. pose proof bufferSize_pos. lia.
  - destruct (sliceStep s) as [s'|] eqn:E; [|exact E].
    apply IH. apply sliceStep_Some in E as [Hle ->]. simpl.
    rewrite length_drop. pose proof bufferSize_pos. lia.
Qed.

Lemma sliceFrames_remainder s :
  length (processingBuffer (sliceFrames s)) < bufferSize.
Proof. apply sliceStep_None, sliceLoop_done. reflexivity. Qed.

Lemma scheduleStep_None_nil now s :
  audioQueue s = [] -> scheduleStep now s = None.
Proof. unfold scheduleStep. intros ->. reflexivity. Qed.

Lemma scheduleStep_queue now s s' :
  scheduleStep now s = Some s' ->
  exists audioData, audioQueue s = audioData :: audioQueue s'.
Proof.
  unfold scheduleStep. destruct (audioQueue s) as [|audioData rest]; [discriminate|].
  destruct (Qlt_le_dec _ _); [|discriminate].
  intros [= <-]. exists audioData.
  destruct rest; simpl; destruct (endOfQueueAudioSource s); reflexivity.
Qed.

(** The fuel of [scheduleNextBuffer] is enough. *)
Lemma scheduleLoop_done now fuel s :
  length (audioQueue s) <= fuel ->
  scheduleStep now (scheduleLoop fuel now s) = None.
Proof.
  revert s. induction fuel as [|fuel IH]; intros s Hlen; simpl.
  - apply scheduleStep_None_nil. destruct (audioQueue s); [reflexivity|simpl in Hlen; lia].
  - destruct (scheduleStep now s) as [s'|] eqn:E; [|exact E].
    apply IH. apply scheduleStep_queue in E as [a Ha].
    rewrite Ha in Hlen. simpl in Hlen. lia.
Qed.

(** ** Fields a function leaves alone *)

Lemma scheduleStep_pushed now s s' :
  scheduleStep now s = Some s' -> pushed s' = pushed s.
Proof. frame_step. Qed.

Lemma scheduleStep_processingBuffer now s s' :
  scheduleStep now s = Some s' -> processingBuffer s' = processingBuffer s.
Proof. frame_step. Qed.

Lemma scheduleStep_onCompleteCalls now s s' :
  scheduleStep now s = Some s' -> onCompleteCalls s' = onCompleteCalls s.
Proof. frame_step. Qed.

Lemma scheduleStep_isStreamComplete now s s' :
  scheduleStep now s = Some s' -> isStreamComplete s' = isStreamComplete s.
Proof. frame_step. Qed.

Lemma scheduleStep_isPlaying now s s' :
  scheduleStep now s = Some s' -> isPlaying s' = isPlaying s.
Proof. frame_step. Qed.

Lemma scheduleStep_timers now s s' :
  scheduleStep now s = Some s' -> timers s' = timers s.
Proof. frame_step. Qed.

Lemma scheduleStep_checkInterval now s s' :
  scheduleStep now s = Some s' -> checkInterval s' = checkInterval s.
Proof. frame_step. Qed.

Lemma rearm_pushed now s : pushed (rearm now s) = pushed s.
Proof. frame_rearm. Qed.

Lemma rearm_processingBuffer now s :
  processingBuffer (rearm now s) = processingBuffer s.
Proof. frame_rearm. Qed.

Lemma rearm_audioQueue now s : audioQueue (rearm now s) = audioQueue s.
Proof. frame_rearm. Qed.

Lemma rearm_started now s : started (rearm now s) = started s.
Proof. frame_rearm. Qed.

Lemma rearm_scheduledTime now s : scheduledTime (rearm now s) = scheduledTime s.
Proof. frame_rearm. Qed.

Lemma rearm_endOfQueueAudioSource now s :
  endOfQueueAudioSource (rearm now s) = endOfQueueAudioSource s.
Proof. frame_rearm. Qed.

Lemma rearm_onCompleteCalls now s :
  onCompleteCalls (rearm now s) = onCompleteCalls s.
Proof. frame_rearm. Qed.

Lemma rearm_isStreamComplete now s :
  isStreamComplete (rearm now s) = isStreamComplete s.
Proof. frame_rearm. Qed.

Lemma scheduleNextBuffer_pushed now s :
  pushed (scheduleNextBuffer now s) = pushed s.
Proof.
  unfold scheduleNextBuffer. rewrite rearm_pushed.
  apply (scheduleLoop_invariant (fun s' => pushed s' = pushed s)); [|reflexivity].
  intros s1 s2 E <-. eapply scheduleStep_pushed, E.
Qed.

Lemma scheduleNextBuffer_processingBuffer now s :
  processingBuffer (scheduleNextBuffer now s) = processingBuffer s.
Proof.
  unfold scheduleNextBuffer. rewrite rearm_processingBuffer.
  apply (scheduleLoop_invariant
           (fun s' => processingBuffer s' = processingBuffer s)); [|reflexivity].
  intros s1 s2 E <-. eapply scheduleStep_processingBuffer, E.
Qed.

Lemma scheduleNextBuffer_onCompleteCalls now s :
  onCompleteCalls (scheduleNextBuffer now s) = onCompleteCalls s.
Proof.
  unfold scheduleNextBuffer. rewrite rearm_onCompleteCalls.
  apply (scheduleLoop_invariant
           (fun s' => onCompleteCalls s' = onCompleteCalls s)); [|reflexivity].
  intros s1 s2 E <-. eapply scheduleStep_onCompleteCalls, E.
Qed.

Lemma scheduleNextBuffer_isStreamComplete now s :
  isStreamComplete (scheduleNextBuffer now s) = isStreamComplete s.
Proof.
  unfold scheduleNextBuffer. rewrite rearm_isStreamComplete.
  apply (scheduleLoop_invariant
           (fun s' => isStreamComplete s' = isStreamComplete s)); [|reflexivity].
  intros s1 s2 E <-. eapply scheduleStep_isStreamComplete, E.
Qed.

(** ** The decoder *)

(** The loop runs for exactly the indices below [chunk.length / 2]. *)
Lemma decodeIndices_spec chunk i :
  In i (decodeIndices chunk) <-> 2 * i < Uint8Array.length chunk.
Proof.
  unfold decodeIndices. rewrite in_seq, Nat.div2_div.
  pose proof (Nat.div_mod_eq (S (Uint8Array.length chunk)) 2).
  pose proof (Nat.mod_upper_bound (S (Uint8Array.length chunk)) 2).
  lia.
Qed.

Lemma decodeStep_length dataView acc i :
  length (decodeStep dataView acc i).1 = length acc.1.
Proof.
  unfold decodeStep. destruct (getInt16 dataView (i * 2)); simpl; [|reflexivity].
  apply length_insert.
Qed.

Lemma decodeFold_length dataView indices acc :
  length (fold_left (decodeStep dataView) indices acc).1 = length acc.1.
Proof.
  revert acc. induction indices as [|i indices IH]; intros acc; simpl.
  - reflexivity.
  - rewrite IH. apply decodeStep_length.
Qed.

(** The decoder yields [floor(chunk.length / 2)] samples, whatever the
    chunk. *)
Lemma decodePCM16_length chunk :
  length (decodePCM16 chunk).1 = Uint8Array.length chunk / 2.
Proof.
  unfold decodePCM16. rewrite decodeFold_length. simpl. apply length_replicate.
Qed.

(** Entry [i] of the array after the turns [0 .. n-1]. *)
Lemma decodeFold_lookup dataView (arr : Float32Array) errs n i :
  (fold_left (decodeStep dataView) (seq 0 n) (arr, errs)).1 !! i =
  match getInt16 dataView (i * 2) with
  | Some int16 =>
      if decide (i < n) then (fun _ => normalize int16) <$> arr !! i
      else arr !! i
  | None => arr !! i
  end.
Proof.
  induction n as [|n IH].
  - simpl. destruct (getInt16 dataView (i * 2)); reflexivity.
  - rewrite seq_S, fold_left_app. simpl.
    set (acc := fold_left (decodeStep dataView) (seq 0 n) (arr, errs)) in *.
    assert (Hlen : length acc.1 = length arr)
      by (unfold acc; apply decodeFold_length).
    unfold decodeStep at 1.
    destruct (decide (i = n)) as [->|Hne].
    + destruct (getInt16 dataView (n * 2)) as [v|] eqn:E; simpl.
      * rewrite list_lookup_insert. rewrite Hlen.
        destruct (decide (n < S n)); [|lia].
        destruct (arr !! n) eqn:Harr.
        -- apply lookup_lt_Some in Harr.
           destruct (decide (n = n /\ n < length arr)); [reflexivity|lia].
        -- apply lookup_ge_None in Harr.
           destruct (decide (n = n /\ n < length arr)); [lia|].
           simpl. apply lookup_ge_None. lia.
      * rewrite IH. reflexivity.
    + assert (Hother :
        (match getInt16 dataView (n * 2) with
         | Some int16 => (<[n:=normalize int16]> acc.1, acc.2)
         | None => (acc.1, S acc.2)
         end).1 !! i = acc.1 !! i).
      { destruct (getInt16 dataView (n * 2)); simpl; [|reflexivity].
        apply list_lookup_insert_ne. lia. }
      rewrite Hother, IH.
      destruct (getInt16 dataView (i * 2)); [|reflexivity].
      destruct (decide (i < n)), (decide (i < S n)); try lia; reflexivity.
Qed.

Lemma pcm16Samples_lookup bs i :
  pcm16Samples bs !! i = normalize <$> getInt16 bs (i * 2).
Proof.
  revert bs. induction i as [|i IH]; intros bs.
  - destruct bs as [|lo [|hi rest]]; reflexivity.
  - destruct bs as [|lo [|hi rest]]; try reflexivity.
    simpl pcm16Samples. rewrite lookup_cons. rewrite IH.
    unfold getInt16. simpl. reflexivity.
Qed.

Lemma getInt16_take dataView n i :
  i * 2 + 1 < n ->
  getInt16 (take n dataView) (i * 2) = getInt16 dataView (i * 2).
Proof.
  intros H. unfold getInt16.
  rewrite !lookup_take_lt by lia. reflexivity.
Qed.

Lemma getInt16_None dataView n i :
  n <= i * 2 + 1 -> getInt16 (take n dataView) (i * 2) = None.
Proof.
  intros H. unfold getInt16.
  rewrite (lookup_take_ge _ _ (S (i * 2))) by lia.
  destruct (take n dataView !! (i * 2)); reflexivity.
Qed.

(** What the decoder computes: the PCM reading of the first [chunk.length]
    bytes of the underlying buffer. *)
Lemma decodePCM16_buffer chunk :
  Uint8Array.length chunk <= length (Uint8Array.buffer chunk) ->
  (decodePCM16 chunk).1 =
  pcm16Samples (take (Uint8Array.length chunk) (Uint8Array.buffer chunk)).
Proof.
  intros Hwf. apply list_eq. intros i.
  unfold decodePCM16, decodeIndices.
  rewrite decodeFold_lookup, pcm16Samples_lookup.
  set (L := Uint8Array.length chunk) in *.
  set (buf := Uint8Array.buffer chunk) in *.
  assert (Hdiv : 2 * (L / 2) <= L) by (apply Nat.Div0.mul_div_le).
  assert (Hmod : L < 2 * (L / 2) + 2).
  { pose proof (Nat.div_mod_eq L 2). pose proof (Nat.mod_upper_bound L 2). lia. }
  assert (Hceil : L / 2 <= Nat.div2 (S L)).
  { rewrite Nat.div2_div. pose proof (Nat.div_mod_eq (S L) 2).
    pose proof (Nat.mod_upper_bound (S L) 2). lia. }
  destruct (decide (i < L / 2)) as [Hi|Hi].
  - rewrite getInt16_take by lia.
    assert (Hlo : is_Some (buf !! (i * 2))) by (apply lookup_lt_is_Some; lia).
    assert (Hhi : is_Some (buf !! S (i * 2))) by (apply lookup_lt_is_Some; lia).
    destruct Hlo as [lo Hlo], Hhi as [hi Hhi].
    assert (Hget : getInt16 buf (i * 2)
                   = Some (toInt16 (byteZ lo + 256 * byteZ hi)))
      by (unfold getInt16; rewrite Hlo, Hhi; reflexivity).
    rewrite Hget, lookup_replicate_2 by lia.
    destruct (decide (i < Nat.div2 (S L))); [reflexivity|lia].
  - rewrite getInt16_None by lia.
    assert (Hnone : replicate (L / 2) 0%Q !! i = None)
      by (apply lookup_ge_None; rewrite length_replicate; lia).
    rewrite Hnone.
    destruct (getInt16 buf (i * 2)); [|reflexivity].
    destruct (decide (i < Nat.div2 (S L))); reflexivity.
Qed.

(** For a chunk that starts at the first byte of its buffer, the decoder
    reads the chunk's own bytes. *)
Lemma decodePCM16_offset0 chunk :
  Uint8Array.wf chunk ->
  Uint8Array.byteOffset chunk = 0 ->
  (decodePCM16 chunk).1 = pcm16Samples (Uint8Array.bytes chunk).
Proof.
  intros Hwf H0. unfold Uint8Array.wf, Uint8Array.bytes in *.
  rewrite H0 in *. simpl in *. rewrite drop_0.
  apply decodePCM16_buffer. exact Hwf.
Qed.

Lemma pcm16Samples_length bs : length (pcm16Samples bs) = length bs / 2.
Proof.
  assert (H : forall n bs, length bs <= n ->
                           length (pcm16Samples bs) = length bs / 2).
  { clear bs. induction n as [|n IH]; intros bs Hn.
    - destruct bs; [reflexivity|simpl in Hn; lia].
    - destruct bs as [|lo [|hi rest]]; try reflexivity.
      simpl pcm16Samples. simpl length in *. rewrite IH by lia.
      replace (S (S (length rest))) with (length rest + 1 * 2) by lia.
      rewrite Nat.div_add by lia. lia. }
  apply (H (length bs)). reflexivity.
Qed.

(** ** Where the decoded samples go *)

Lemma sliceFrames_content s :
  concat (pushed (sliceFrames s)) ++ processingBuffer (sliceFrames s)
  = concat (pushed s) ++ processingBuffer s.
Proof.
  unfold sliceFrames.
  apply (sliceLoop_invariant
           (fun s' => concat (pushed s') ++ processingBuffer s'
                      = concat (pushed s) ++ processingBuffer s));
    [|reflexivity].
  intros s1 s2 E <-. apply sliceStep_Some in E as [_ ->]. simpl.
  rewrite concat_app. simpl. rewrite app_nil_r, <- app_assoc, take_drop.
  reflexivity.
Qed.

Lemma sliceFrames_isPlaying s : isPlaying (sliceFrames s) = isPlaying s.
Proof.
  unfold sliceFrames.
  apply (sliceLoop_invariant (fun s' => isPlaying s' = isPlaying s));
    [|reflexivity].
  intros s1 s2 E <-. apply sliceStep_Some in E as [_ ->]. reflexivity.
Qed.

Lemma ingest_content chunk s :
  concat (pushed (ingest chunk s)) ++ processingBuffer (ingest chunk s)
  = (concat (pushed s) ++ processingBuffer s) ++ (decodePCM16 chunk).1.
Proof.
  unfold ingest. destruct (decodePCM16 chunk) as [float32Array errors].
  rewrite sliceFrames_content. simpl. apply app_assoc.
Qed.

Lemma addPCM16_content now chunk s :
  concat (pushed (addPCM16 now chunk s))
    ++ processingBuffer (addPCM16 now chunk s)
  = (concat (pushed s) ++ processingBuffer s) ++ (decodePCM16 chunk).1.
Proof.
  unfold addPCM16. simpl. destruct (isPlaying (ingest chunk s)).
  - apply ingest_content.
  - rewrite scheduleNextBuffer_pushed, scheduleNextBuffer_processingBuffer.
    apply ingest_content.
Qed.

Lemma complete_content now s :
  concat (pushed (complete now s)) ++ processingBuffer (complete now s)
  = concat (pushed s) ++ processingBuffer s.
Proof.
  unfold complete. simpl. destruct (processingBuffer s) as [|x pb] eqn:E; simpl.
  - rewrite E. reflexivity.
  - assert (H : concat (pushed s ++ [x :: pb]) ++ [] = concat (pushed s) ++ x :: pb).
    { rewrite concat_app. simpl. rewrite !app_nil_r. reflexivity. }
    destruct (isPlaying s); [|exact H].
    rewrite scheduleNextBuffer_pushed, scheduleNextBuffer_processingBuffer.
    exact H.
Qed.

Lemma timerFired_content now id s :
  pushed (timerFired now id s) = pushed s
  /\ processingBuffer (timerFired now id s) = processingBuffer s.
Proof.
  unfold timerFired. destruct (find _ _) as [t|]; [|auto].
  destruct (timerHandler t).
  - destruct (_ || _); [|auto].
    rewrite scheduleNextBuffer_pushed, scheduleNextBuffer_processingBuffer. auto.
  - rewrite scheduleNextBuffer_pushed, scheduleNextBuffer_processingBuffer. auto.
  - auto.
Qed.

Lemma sourceEnded_content id s :
  pushed (sourceEnded id s) = pushed s
  /\ processingBuffer (sourceEnded id s) = processingBuffer s.
Proof.
  unfold sourceEnded. destruct (started s !! id) as [src|]; [|auto].
  destruct (ended src); [auto|]. destruct (_ && _); auto.
Qed.

Lemma step_content now e s :
  e <> Stop ->
  concat (pushed (step now e s)) ++ processingBuffer (step now e s)
  = (concat (pushed s) ++ processingBuffer s) ++ decodedBy e.
Proof.
  intros Hstop. destruct e; simpl; rewrite ?app_nil_r.
  - apply addPCM16_content.
  - apply complete_content.
  - congruence.
  - reflexivity.
  - unfold addWorkletEnter. destruct (_ !! _); [|destruct (inheritedName _)]; reflexivity.
  - unfold addWorkletSettle. destruct outcome; [destruct (_ !! _); [|destruct (inheritedName _)]|]; reflexivity.
  - destruct (timerFired_content now id s) as [-> ->]. reflexivity.
  - destruct (sourceEnded_content id s) as [-> ->]. reflexivity.
Qed.

Lemma decodedSamples_cons te trace :
  decodedSamples (te :: trace) = decodedBy te.2 ++ decodedSamples trace.
Proof. unfold decodedSamples. destruct te as [now []]; reflexivity. Qed.

Lemma run_content trace : forall s,
  noStop trace ->
  concat (pushed (run trace s)) ++ processingBuffer (run trace s)
  = (concat (pushed s) ++ processingBuffer s) ++ decodedSamples trace.
Proof.
  induction trace as [|te trace IH]; intros s Hstop.
  - simpl. rewrite app_nil_r. reflexivity.
  - inversion Hstop as [|? ? Hte Hrest]; subst.
    change (run (te :: trace) s) with (run trace (step te.1 te.2 s)).
    rewrite IH by assumption. rewrite step_content by assumption.
    rewrite decodedSamples_cons. rewrite <- !app_assoc. reflexivity.
Qed.

Lemma decodedSamples_length trace :
  length (decodedSamples trace) = decodedCount trace.
Proof.
  induction trace as [|te trace IH]; [reflexivity|].
  rewrite decodedSamples_cons, length_app, IH.
  unfold decodedCount. simpl. f_equal.
  destruct te as [now []]; simpl; try reflexivity. apply decodePCM16_length.
Qed.

(** C1.  Sample conservation.  Along any trace that starts at a new streamer
    and contains no [stop()], the frames pushed onto the queue so far,
    laid end to end and followed by the remainder buffer, are exactly the
    decoded samples in the order they were decoded: none is lost, none is in
    two frames.  In particular the lengths of the frames and of the
    remainder buffer add up to the number of decoded samples, which is the
    number of complete byte pairs fed. *)
Theorem sample_conservation (trace : list (Q * Event)) :
  noStop trace ->
  concat (pushed (run trace construct))
    ++ processingBuffer (run trace construct) = decodedSamples trace
  /\ list_sum (map (length (A:=Q)) (pushed (run trace construct)))
     + length (processingBuffer (run trace construct))
     = decodedCount trace.
Proof.
  intros Hstop.
  pose proof (run_content trace construct Hstop) as H. simpl in H.
  split; [exact H|].
  rewrite <- decodedSamples_length, <- H, length_app, length_concat.
  reflexivity.
Qed.

Lemma sample_conservation_witness :
  noStop [(0%Q, AddPCM16 (Uint8Array.of_bytes [Byte.x01; Byte.x00; Byte.x02]));
          (0.5%Q, Complete)]
  /\ list_sum (map (length (A:=Q))
       (pushed (run [(0%Q, AddPCM16 (Uint8Array.of_bytes
                                       [Byte.x01; Byte.x00; Byte.x02]));
                     (0.5%Q, Complete)] construct)))
     + length (processingBuffer
         (run [(0%Q, AddPCM16 (Uint8Array.of_bytes
                                 [Byte.x01; Byte.x00; Byte.x02]));
               (0.5%Q, Complete)] construct))
     = 1.
Proof.
  assert (Hstop : noStop
    [(0%Q, AddPCM16 (Uint8Array.of_bytes [Byte.x01; Byte.x00; Byte.x02]));
     (0.5%Q, Complete)])
    by (repeat constructor; discriminate).
  split; [exact Hstop|].
  exact (proj2 (sample_conservation _ Hstop)).
Defined.

(** ** Decoding a chunk that is a view into a larger buffer *)

(** A three-byte chunk decodes to one sample; the turn of the loop for the
    odd byte fails inside the [try] and is logged, nothing reaches the
    caller. *)
Example addPCM16_three_bytes :
  let s := addPCM16 0 (Uint8Array.of_bytes [Byte.xff; Byte.x7f; Byte.x01])
             construct in
  processingBuffer s = [normalize 32767] /\ audioQueue s = []
  /\ consoleErrors s = 1.
Proof. vm_compute. auto. Qed.

(** C2.  Decode correctness, at a chunk whose [byteOffset] is not zero: the
    chunk holds the bytes [02 00], that is the sample 2/32768, and
    [addPCM16] stores the sample 1/32768, read from the first two bytes of
    the underlying buffer. *)
Theorem addPCM16_offset_view_misdecoded :
  Uint8Array.wf offsetView
  /\ Uint8Array.bytes offsetView = [Byte.x02; Byte.x00]
  /\ pcm16Samples (Uint8Array.bytes offsetView) = [normalize 2]
  /\ processingBuffer (addPCM16 0 offsetView construct) = [normalize 1]
  /\ normalize 1 <> normalize 2.
Proof.
  split; [unfold Uint8Array.wf, offsetView; simpl; lia|].
  split; [reflexivity|]. split; [reflexivity|].
  split; [vm_compute; reflexivity|discriminate].
Qed.

(** ** Frame slicing and activation *)

Lemma sliceLoop_stop fuel s : sliceStep s = None -> sliceLoop fuel s = s.
Proof. intros H. destruct fuel; simpl; [|rewrite H]; reflexivity. Qed.

(** With at least one and less than two frames in the buffer the loop makes
    one turn. *)
Lemma sliceFrames_one s :
  bufferSize <= length (processingBuffer s) < 2 * bufferSize ->
  sliceFrames s
  = with_processingBuffer (drop bufferSize (processingBuffer s))
      (push (take bufferSize (processingBuffer s)) s).
Proof.
  intros [Hlo Hhi]. unfold sliceFrames.
  pose proof bufferSize_pos as Hpos.
  destruct (length (processingBuffer s)) as [|fuel] eqn:Hlen; [lia|].
  simpl. unfold sliceStep at 1. rewrite Hlen.
  destruct (Nat.leb_spec bufferSize (S fuel)); [|lia].
  apply sliceLoop_stop, sliceStep_None. simpl.
  rewrite length_drop. lia.
Qed.

Lemma ingest_one_frame chunk s k :
  processingBuffer s = [] ->
  Uint8Array.length chunk / 2 = bufferSize + k ->
  k < bufferSize ->
  exists errors,
    ingest chunk s
    = with_processingBuffer (drop bufferSize (decodePCM16 chunk).1)
        (push (take bufferSize (decodePCM16 chunk).1)
           (with_processingBuffer (decodePCM16 chunk).1
              (with_consoleErrors (consoleErrors s + errors) s))).
Proof.
  intros Hpb Hlen Hk. unfold ingest.
  pose proof (decodePCM16_length chunk) as Hdec.
  destruct (decodePCM16 chunk) as [float32Array errors]. simpl in *.
  exists errors. rewrite Hpb. simpl.
  rewrite sliceFrames_one by (simpl; lia). reflexivity.
Qed.

Lemma lookahead_open (now : Q) :
  (now + initialBufferTime < now + SCHEDULE_AHEAD_TIME)%Q.
Proof. unfold initialBufferTime, SCHEDULE_AHEAD_TIME. lra. Qed.

Lemma Qmax_initial (now : Q) :
  (Qmax (now + initialBufferTime) now == now + initialBufferTime)%Q.
Proof.
  destruct (Q.max_spec (now + initialBufferTime) now) as [[H _]|[_ H]].
  - unfold initialBufferTime in H. lra.
  - exact H.
Qed.

(** The last frame of the queue is submitted and armed as marker. *)
Lemma scheduleStep_last now s audioData :
  audioQueue s = [audioData] ->
  (scheduledTime s < now + SCHEDULE_AHEAD_TIME)%Q ->
  scheduleStep now s
  = Some (with_scheduledTime (Qmax (scheduledTime s) now + duration audioData)%Q
            (with_started
               (match endOfQueueAudioSource s with
                | Some old => alter disarm old (started s)
                | None => started s
                end ++ [mkSource audioData (Qmax (scheduledTime s) now) true
                          false (gainNode s) (workletNodes s)])
               (with_endOfQueueAudioSource (Some (length (started s)))
                  (with_audioQueue [] s)))).
Proof.
  intros Hq Hlt. unfold scheduleStep. rewrite Hq.
  destruct (Qlt_le_dec _ _) as [_|Hle]; [|lra].
  simpl. destruct (endOfQueueAudioSource s); reflexivity.
Qed.

Lemma scheduleNextBuffer_last now s audioData :
  audioQueue s = [audioData] ->
  (scheduledTime s < now + SCHEDULE_AHEAD_TIME)%Q ->
  scheduleNextBuffer now s
  = rearm now
      (with_scheduledTime (Qmax (scheduledTime s) now + duration audioData)%Q
         (with_started
            (match endOfQueueAudioSource s with
             | Some old => alter disarm old (started s)
             | None => started s
             end ++ [mkSource audioData (Qmax (scheduledTime s) now) true
                       false (gainNode s) (workletNodes s)])
            (with_endOfQueueAudioSource (Some (length (started s)))
               (with_audioQueue [] s)))).
Proof.
  intros Hq Hlt. unfold scheduleNextBuffer. rewrite Hq. simpl.
  rewrite (scheduleStep_last now s audioData Hq Hlt). reflexivity.
Qed.

Lemma rearm_isPlaying now s :
  isPlaying (rearm now s)
  = match audioQueue s, processingBuffer s with
    | [], [] => if isStreamComplete s then false else isPlaying s
    | _, _ => isPlaying s
    end.
Proof. frame_rearm. Qed.

Lemma ingest_isPlaying chunk s : isPlaying (ingest chunk s) = isPlaying s.
Proof.
  unfold ingest. destruct (decodePCM16 chunk).
  rewrite sliceFrames_isPlaying. reflexivity.
Qed.

(** A full frame lasts 0.32 s. *)
Lemma duration_frame (frame : Float32Array) :
  length frame = bufferSize -> (duration frame == 0.32)%Q.
Proof. intros H. unfold duration. rewrite H. vm_compute. reflexivity. Qed.

(** What one call of [addPCM16] does to an idle streamer when the chunk
    holds one frame and [k] more samples. *)
Lemma addPCM16_idle now chunk s k :
  isPlaying s = false ->
  audioQueue s = [] ->
  processingBuffer s = [] ->
  Uint8Array.length chunk / 2 = bufferSize + k ->
  k < bufferSize ->
  exists errors,
    addPCM16 now chunk s
    = rearm now
        (with_scheduledTime
           (Qmax (now + initialBufferTime) now
            + duration (take bufferSize (decodePCM16 chunk).1))%Q
           (with_started
              (match endOfQueueAudioSource s with
               | Some old => alter disarm old (started s)
               | None => started s
               end ++ [mkSource (take bufferSize (decodePCM16 chunk).1)
                         (Qmax (now + initialBufferTime) now) true false
                         (gainNode s) (workletNodes s)])
              (with_endOfQueueAudioSource (Some (length (started s)))
                 (with_audioQueue []
                    (with_scheduledTime (now + initialBufferTime)%Q
                       (with_isPlaying true
                          (with_processingBuffer
                             (drop bufferSize (decodePCM16 chunk).1)
                             (with_pushed
                                (pushed s
                                 ++ [take bufferSize (decodePCM16 chunk).1])
                                (with_consoleErrors
                                   (consoleErrors s + errors) s))))))))).
Proof.
  intros Hplay Hq Hpb Hlen Hk.
  destruct (ingest_one_frame chunk s k Hpb Hlen Hk) as [errors Hin].
  exists errors. unfold addPCM16. simpl.
  rewrite ingest_isPlaying, Hplay. rewrite Hin.
  match goal with |- scheduleNextBuffer now ?x = _ => set (s3 := x) end.
  assert (Hq3 : audioQueue s3 = [take bufferSize (decodePCM16 chunk).1])
    by (simpl; rewrite Hq; reflexivity).
  rewrite (scheduleNextBuffer_last now s3 _ Hq3 (lookahead_open now)).
  reflexivity.
Qed.

(** C3 (as the code has it).  An [addPCM16] call made while not playing sets
    [isPlaying], puts the cursor at [now + 0.1] and runs the drain in the
    same call.  So when an idle streamer is fed one frame and [k] more
    samples ([0 <= k < 7680]; [k = 0] for exactly [2 * 7680] bytes), exactly
    one frame of 7680 samples is produced and [k] samples stay in the
    remainder buffer, and the frame is dequeued and submitted at once, to
    start at [now + 0.1]: on return the queue is empty, the frame is the
    newest submission and the end-of-queue marker, the cursor is at
    [now + 0.1 + 0.32], and [isPlaying] is set unless the stream was already
    marked complete and nothing remains. *)
Theorem addPCM16_idle_one_frame (now : Q) :
  (forall chunk s,
     isPlaying s = false ->
     addPCM16 now chunk s
     = scheduleNextBuffer now
         (with_scheduledTime (now + initialBufferTime)%Q
            (with_isPlaying true (ingest chunk s))))
  /\ (forall chunk s k,
        isPlaying s = false ->
        audioQueue s = [] ->
        processingBuffer s = [] ->
        Uint8Array.length chunk / 2 = bufferSize + k ->
        k < bufferSize ->
        exists frame earlier src,
          frame = take bufferSize (decodePCM16 chunk).1
          /\ length frame = bufferSize
          /\ bufferSize = Z.to_nat 7680
          /\ pushed (addPCM16 now chunk s) = pushed s ++ [frame]
          /\ processingBuffer (addPCM16 now chunk s)
             = drop bufferSize (decodePCM16 chunk).1
          /\ length (processingBuffer (addPCM16 now chunk s)) = k
          /\ audioQueue (addPCM16 now chunk s) = []
          /\ started (addPCM16 now chunk s) = earlier ++ [src]
          /\ length earlier = length (started s)
          /\ buffer src = frame
          /\ (startTime src == now + 0.1)%Q
          /\ onended src = true
          /\ endOfQueueAudioSource (addPCM16 now chunk s)
             = Some (length (started s))
          /\ (scheduledTime (addPCM16 now chunk s) == now + 0.1 + 0.32)%Q
          /\ isPlaying (addPCM16 now chunk s)
             = negb (isStreamComplete s && (k =? 0))).
Proof.
  split.
  - intros chunk s Hplay. unfold addPCM16. simpl.
    rewrite ingest_isPlaying, Hplay. reflexivity.
  - intros chunk s k Hplay Hq Hpb Hlen Hk.
    destruct (addPCM16_idle now chunk s k Hplay Hq Hpb Hlen Hk) as [errors ->].
    pose proof (decodePCM16_length chunk) as Hdec.
    set (decoded := (decodePCM16 chunk).1) in *.
    assert (Hframe : length (take bufferSize decoded) = bufferSize)
      by (rewrite length_take; lia).
    assert (Hrest : length (drop bufferSize decoded) = k)
      by (rewrite length_drop; lia).
    eexists _, _, _. split; [reflexivity|].
    rewrite rearm_pushed, rearm_processingBuffer, rearm_audioQueue,
      rearm_started, rearm_endOfQueueAudioSource, rearm_scheduledTime,
      rearm_isPlaying.
    simpl.
    repeat match goal with |- _ /\ _ => split end;
      try reflexivity; try assumption.
    + destruct (endOfQueueAudioSource s);
        [apply length_alter|reflexivity].
    + apply Qmax_initial.
    + rewrite Qmax_initial, (duration_frame _ Hframe). reflexivity.
    + destruct (drop bufferSize decoded) as [|x rest] eqn:E; simpl in Hrest.
      * subst k. simpl. rewrite andb_true_r. 
        destruct (isStreamComplete s); reflexivity.
      * subst k. simpl. rewrite andb_false_r. reflexivity.
Qed.

Lemma addPCM16_idle_one_frame_witness :
  audioQueue (addPCM16 0 zeroChunk construct) = []
  /\ processingBuffer (addPCM16 0 zeroChunk construct)
     = drop bufferSize (decodePCM16 zeroChunk).1.
Proof.
  assert (Hlen : Uint8Array.length zeroChunk / 2 = bufferSize + 0)
    by (vm_compute; reflexivity).
  destruct (proj2 (addPCM16_idle_one_frame 0) zeroChunk construct 0
              eq_refl eq_refl eq_refl Hlen bufferSize_pos)
    as (frame & earlier & src & _ & _ & _ & _ & Hpb & _ & Hq & _).
  split; assumption.
Defined.

(** The specification's reading fails: after the call from the idle state
    the queue does not hold the frame any more. *)
Lemma addPCM16_idle_frame_not_queued :
  ~ oneFrameQueued 0 (addPCM16 0 zeroChunk construct).
Proof.
  assert (Hlen : Uint8Array.length zeroChunk / 2 = bufferSize + 0)
    by (vm_compute; reflexivity).
  destruct (addPCM16_idle 0 zeroChunk construct 0
              eq_refl eq_refl eq_refl Hlen bufferSize_pos) as [errors E].
  intros [[frame [Hq _]] _]. rewrite E, rearm_audioQueue in Hq.
  discriminate Hq.
Qed.

(** ** The scheduling cursor *)

Lemma duration_nonneg (audioData : Float32Array) : (0 <= duration audioData)%Q.
Proof.
  unfold duration, sampleRate, Qdiv.
  apply Qmult_le_0_compat; [|discriminate].
  change 0%Q with (inject_Z 0). rewrite <- Zle_Qle. lia.
Qed.

(** One turn of the drain: the source it starts and where it leaves the
    cursor.  Sources started earlier keep their buffer, start time and
    [ended] flag. *)
Lemma scheduleStep_started now s s' :
  scheduleStep now s = Some s' ->
  exists audioData earlier src,
    audioQueue s = audioData :: audioQueue s'
    /\ started s' = earlier ++ [src]
    /\ length earlier = length (started s)
    /\ (forall i o, earlier !! i = Some o ->
          exists o', started s !! i = Some o'
                     /\ buffer o = buffer o'
                     /\ startTime o = startTime o'
                     /\ ended o = ended o')
    /\ buffer src = audioData
    /\ startTime src = Qmax (scheduledTime s) now
    /\ ended src = false
    /\ scheduledTime s' = (startTime src + duration audioData)%Q.
Proof.
  unfold scheduleStep.
  destruct (audioQueue s) as [|audioData rest] eqn:Hq; [discriminate|].
  destruct (Qlt_le_dec _ _); [|discriminate].
  intros [= <-]. exists audioData.
  destruct rest as [|next rest]; simpl.
  - destruct (endOfQueueAudioSource s) as [old|]; simpl.
    + eexists _, _. repeat split; try reflexivity.
      * apply length_alter.
      * intros i o. rewrite list_lookup_alter.
        destruct (decide (old = i)) as [->|_].
        -- destruct (started s !! i) as [o'|]; [|discriminate].
           intros [= <-]. exists o'. auto.
        -- intros ->. eauto.
    + eexists _, _. repeat split; try reflexivity. eauto.
  - eexists _, _. repeat split; try reflexivity. eauto.
Qed.

Lemma scheduleStep_cursor now s s' :
  scheduleStep now s = Some s' -> (scheduledTime s <= scheduledTime s')%Q.
Proof.
  intros H. apply scheduleStep_started in H
    as (audioData & earlier & src & _ & _ & _ & _ & _ & Hstart & _ & ->).
  rewrite Hstart.
  pose proof (Q.le_max_l (scheduledTime s) now).
  pose proof (duration_nonneg audioData). lra.
Qed.

Lemma scheduleNextBuffer_cursor now s :
  (scheduledTime s <= scheduledTime (scheduleNextBuffer now s))%Q.
Proof.
  unfold scheduleNextBuffer. rewrite rearm_scheduledTime.
  apply (scheduleLoop_invariant
           (fun s' => (scheduledTime s <= scheduledTime s')%Q));
    [|apply Qle_refl].
  intros s1 s2 E Hle. apply scheduleStep_cursor in E. lra.
Qed.

(** No source started by a drain starts before the clock reading of the
    drain. *)
Lemma scheduleNextBuffer_not_in_past now s i src :
  started (scheduleNextBuffer now s) !! i = Some src ->
  length (started s) <= i ->
  (now <= startTime src)%Q.
Proof.
  unfold scheduleNextBuffer. rewrite rearm_started. revert i src.
  apply (scheduleLoop_invariant
           (fun s' =>
              length (started s) <= length (started s')
              /\ forall i src,
                   started s' !! i = Some src ->
                   length (started s) <= i -> (now <= startTime src)%Q)).
  - intros s1 s2 E [Hlen IH].
    apply scheduleStep_started in E
      as (audioData & earlier & new & _ & -> & Hlen' & Hold & _ & Hstart & _).
    split; [rewrite length_app; simpl; lia|].
    intros i src Hi Hge.
    destruct (decide (i < length earlier)) as [Hlt|Hnlt].
    + rewrite lookup_app_l in Hi by exact Hlt.
      destruct (Hold i src Hi) as (o' & Ho' & _ & -> & _).
      apply (IH i o' Ho' Hge).
    + rewrite lookup_app_r in Hi by lia.
      destruct (i - length earlier) as [|j]; simpl in Hi; [|discriminate].
      injection Hi as <-. rewrite Hstart. apply Q.le_max_r.
  - split; [lia|]. intros i src Hi Hge.
    apply lookup_lt_Some in Hi. lia.
Qed.

Lemma sliceFrames_scheduledTime s :
  scheduledTime (sliceFrames s) = scheduledTime s.
Proof.
  unfold sliceFrames.
  apply (sliceLoop_invariant (fun s' => scheduledTime s' = scheduledTime s));
    [|reflexivity].
  intros s1 s2 E <-. apply sliceStep_Some in E as [_ ->]. reflexivity.
Qed.

Lemma ingest_scheduledTime chunk s :
  scheduledTime (ingest chunk s) = scheduledTime s.
Proof.
  unfold ingest. destruct (decodePCM16 chunk).
  rewrite sliceFrames_scheduledTime. reflexivity.
Qed.

Lemma complete_cursor now s :
  (scheduledTime s <= scheduledTime (complete now s))%Q.
Proof.
  unfold complete. simpl. destruct (processingBuffer s); simpl.
  - apply Qle_refl.
  - destruct (isPlaying s); [|apply Qle_refl].
    match goal with |- (_ <= scheduledTime (scheduleNextBuffer now ?x))%Q =>
      apply (scheduleNextBuffer_cursor now x) end.
Qed.

Lemma timerFired_cursor now id s :
  (scheduledTime s <= scheduledTime (timerFired now id s))%Q.
Proof.
  unfold timerFired. destruct (find _ _) as [t|]; [|apply Qle_refl].
  destruct (timerHandler t).
  - destruct (_ || _); [apply scheduleNextBuffer_cursor|apply Qle_refl].
  - apply (scheduleNextBuffer_cursor now (clearTimer id s)).
  - apply Qle_refl.
Qed.

Lemma sourceEnded_scheduledTime id s :
  scheduledTime (sourceEnded id s) = scheduledTime s.
Proof.
  unfold sourceEnded. destruct (started s !! id) as [src|]; [|reflexivity].
  destruct (ended src); [reflexivity|]. destruct (_ && _); reflexivity.
Qed.

(** C4 (as the code has it).  Every turn of the drain takes the first frame
    of the queue, starts its source at [max(cursor, now)], hence not before
    [now] and not before the cursor, and moves the cursor to that start
    time plus the duration of the frame; a drain never moves the cursor
    back and starts nothing in the past.  The cursor is assigned
    anew by [stop] (to [now]), by [resume] (to [now + 0.1]) and by an
    [addPCM16] call made while not playing (to [now + 0.1], before its
    drain); no other method or callback moves it back. *)
Theorem scheduling_monotonic (now : Q) :
  (forall s s',
     scheduleStep now s = Some s' ->
     exists earlier src,
       started s' = earlier ++ [src]
       /\ length earlier = length (started s)
       /\ startTime src = Qmax (scheduledTime s) now
       /\ (now <= startTime src)%Q
       /\ (scheduledTime s <= startTime src)%Q
       /\ (startTime src <= scheduledTime s')%Q
       /\ audioQueue s = buffer src :: audioQueue s'
       /\ scheduledTime s' = (startTime src + duration (buffer src))%Q)
  /\ (forall s,
        (scheduledTime s <= scheduledTime (scheduleNextBuffer now s))%Q
        /\ forall i src,
             started (scheduleNextBuffer now s) !! i = Some src ->
             length (started s) <= i -> (now <= startTime src)%Q)
  /\ (forall s chunk,
        scheduledTime (stop now s) = now
        /\ scheduledTime (resume now s) = (now + initialBufferTime)%Q
        /\ (isPlaying s = false ->
            addPCM16 now chunk s
            = scheduleNextBuffer now
                (with_scheduledTime (now + initialBufferTime)%Q
                   (with_isPlaying true (ingest chunk s)))))
  /\ (forall e s,
        e <> Stop -> e <> Resume ->
        (forall chunk, e = AddPCM16 chunk -> isPlaying s = true) ->
        (scheduledTime s <= scheduledTime (step now e s))%Q).
Proof.
  split; [|split; [|split]].
  - intros s s' E. pose proof (scheduleStep_cursor now s s' E) as Hcur.
    apply scheduleStep_started in E
      as (audioData & earlier & src & Hq & Hst & Hlen & _ & Hbuf & Hstart
          & _ & Hs').
    exists earlier, src. rewrite Hs', Hstart, Hbuf.
    pose proof (Q.le_max_l (scheduledTime s) now).
    pose proof (Q.le_max_r (scheduledTime s) now).
    pose proof (duration_nonneg audioData).
    repeat match goal with |- _ /\ _ => split end; auto; lra.
  - intros s. split; [apply scheduleNextBuffer_cursor|].
    intros i src. apply scheduleNextBuffer_not_in_past.
  - intros s chunk.
    split; [unfold stop; simpl; destruct (checkInterval s); reflexivity|].
    split; [reflexivity|].
    intros Hplay. unfold addPCM16. simpl.
    rewrite ingest_isPlaying, Hplay. reflexivity.
  - intros e s Hstop Hresume Hplay. destruct e; simpl; try congruence.
    + unfold addPCM16. simpl.
      rewrite ingest_isPlaying, (Hplay chunk eq_refl), ingest_scheduledTime.
      apply Qle_refl.
    + apply complete_cursor.
    + unfold addWorkletEnter. destruct (_ !! _); [|destruct (inheritedName _)]; apply Qle_refl.
    + unfold addWorkletSettle.
      destruct outcome; [destruct (_ !! _); [|destruct (inheritedName _)]|]; apply Qle_refl.
    + apply timerFired_cursor.
    + rewrite sourceEnded_scheduledTime. apply Qle_refl.
Qed.

Lemma scheduling_monotonic_witness :
  (scheduledTime (addPCM16 0 (Uint8Array.of_bytes [Byte.x01; Byte.x00]) construct)
   <= scheduledTime
        (step 0.3 (AddPCM16 (Uint8Array.of_bytes [Byte.x02; Byte.x00]))
           (addPCM16 0 (Uint8Array.of_bytes [Byte.x01; Byte.x00]) construct)))%Q.
Proof.
  apply (proj2 (proj2 (proj2 (scheduling_monotonic 0.3)))).
  - discriminate.
  - discriminate.
  - intros chunk _. vm_compute. reflexivity.
Defined.

(** The specification's reading fails: after a session has drained, the
    next chunk puts the cursor at [now + 0.1], below where the session had
    left it. *)
Lemma cursor_moved_back_by_addPCM16 : ~ cursorResetOnlyByResumeStop.
Proof.
  intros H.
  specialize (H [(0%Q, AddPCM16 (Uint8Array.of_bytes [Byte.x01; Byte.x00]));
                 (0%Q, Complete)]
                0%Q (AddPCM16 (Uint8Array.of_bytes [Byte.x02; Byte.x00]))).
  assert (Hc : clockOrdered 0
                 ([(0%Q, AddPCM16 (Uint8Array.of_bytes [Byte.x01; Byte.x00]));
                   (0%Q, Complete)]
                  ++ [(0%Q, AddPCM16 (Uint8Array.of_bytes [Byte.x02; Byte.x00]))]))
    by (simpl; repeat split; apply Qle_refl).
  specialize (H Hc ltac:(discriminate) ltac:(discriminate)).
  vm_compute in H. apply H. reflexivity.
Qed.

(** ** Completion *)

Lemma complete_empty now s :
  processingBuffer s = [] ->
  complete now s = fireOnComplete (with_isStreamComplete true s).
Proof. intros H. unfold complete. simpl. rewrite H. reflexivity. Qed.

Lemma complete_flush now s :
  processingBuffer s <> [] ->
  complete now s
  = let flushed :=
      with_processingBuffer []
        (push (processingBuffer s) (with_isStreamComplete true s)) in
    if isPlaying s then scheduleNextBuffer now flushed else flushed.
Proof.
  intros H. unfold complete. simpl.
  destruct (processingBuffer s); [congruence|reflexivity].
Qed.



(** When the [ended] event of a source calls [onComplete]. *)
Lemma sourceEnded_fires id s :
  onCompleteCalls (sourceEnded id s) <> onCompleteCalls s ->
  onCompleteCalls (sourceEnded id s) = S (onCompleteCalls s)
  /\ endOfQueueAudioSource s = Some id
  /\ audioQueue s = []
  /\ endOfQueueAudioSource (sourceEnded id s) = None.
Proof.
  unfold sourceEnded. destruct (started s !! id) as [src|]; [|congruence].
  destruct (ended src); [congruence|].
  destruct (onended src); simpl; [|congruence].
  destruct (length (audioQueue s) =? 0) eqn:Hq; simpl; [|congruence].
  destruct (bool_decide_reflect (endOfQueueAudioSource s = Some id)) as [Hm|];
    simpl; [|congruence].
  intros _. apply Nat.eqb_eq in Hq.
  destruct (audioQueue s); [auto|discriminate].
Qed.

Lemma sourceEnded_missing id s :
  started s !! id = None -> sourceEnded id s = s.
Proof. intros H. unfold sourceEnded. rewrite H. reflexivity. Qed.

Lemma sourceEnded_ended id s src :
  started s !! id = Some src -> ended src = true -> sourceEnded id s = s.
Proof. intros H He. unfold sourceEnded. rewrite H, He. reflexivity. Qed.

Lemma sourceEnded_started id s src :
  started s !! id = Some src -> ended src = false ->
  started (sourceEnded id s) = <[id := markEnded src]> (started s).
Proof.
  intros H He. unfold sourceEnded. rewrite H, He.
  destruct (_ && _); reflexivity.
Qed.





(** C7.  [complete()] marks the stream complete.  With a non-empty
    remainder buffer it appends the buffer's contents to the queue as one
    last frame, empties the buffer and, when playing, runs the drain in the
    same call; it does not call [onComplete] itself.  With an empty
    remainder buffer it calls [onComplete] once in the same call and
    changes nothing else: no source, timer, queue or cursor is touched. *)
Theorem complete_semantics (now : Q) (s : AudioStreamer) :
  isStreamComplete (complete now s) = true
  /\ (processingBuffer s <> [] ->
      complete now s
      = (let flushed :=
           with_processingBuffer []
             (with_pushed (pushed s ++ [processingBuffer s])
                (with_audioQueue (audioQueue s ++ [processingBuffer s])
                   (with_isStreamComplete true s))) in
         if isPlaying s then scheduleNextBuffer now flushed else flushed)
      /\ pushed (complete now s) = pushed s ++ [processingBuffer s]
      /\ processingBuffer (complete now s) = []
      /\ onCompleteCalls (complete now s) = onCompleteCalls s)
  /\ (processingBuffer s = [] ->
      complete now s
      = with_onCompleteCalls (S (onCompleteCalls s))
          (with_isStreamComplete true s)
      /\ onCompleteCalls (complete now s) = S (onCompleteCalls s)
      /\ started (complete now s) = started s
      /\ timers (complete now s) = timers s
      /\ audioQueue (complete now s) = audioQueue s
      /\ scheduledTime (complete now s) = scheduledTime s).
Proof.
  split; [|split].
  - destruct (processingBuffer s) as [|x pb] eqn:E.
    + rewrite complete_empty by exact E. reflexivity.
    + rewrite complete_flush by congruence. simpl.
      destruct (isPlaying s); [|reflexivity].
      rewrite scheduleNextBuffer_isStreamComplete. reflexivity.
  - intros H. rewrite (complete_flush now s H). simpl.
    split; [reflexivity|].
    destruct (isPlaying s); [|auto].
    rewrite scheduleNextBuffer_pushed, scheduleNextBuffer_processingBuffer,
      scheduleNextBuffer_onCompleteCalls.
    auto.
  - intros H. rewrite (complete_empty now s H). repeat split.
Qed.

Lemma complete_semantics_witness :
  pushed (complete 0.5 (addPCM16 0 (Uint8Array.of_bytes [Byte.x01; Byte.x00])
                          construct))
  = [[normalize 1]]
  /\ onCompleteCalls (complete 0 construct) = 1.
Proof.
  split.
  - refine (proj1 (proj2 (proj1 (proj2
      (complete_semantics 0.5
         (addPCM16 0 (Uint8Array.of_bytes [Byte.x01; Byte.x00]) construct)))
      _))).
    vm_compute. discriminate.
  - exact (proj1 (proj2 (proj2 (proj2 (complete_semantics 0 construct))
                           eq_refl))).
Defined.

(** ** With nothing buffered *)

Lemma scheduleNextBuffer_nothing_queued now s :
  audioQueue s = [] -> scheduleNextBuffer now s = rearm now s.
Proof. intros H. unfold scheduleNextBuffer. rewrite H. reflexivity. Qed.

Lemma fmap_markEnded (l : list AudioBufferSourceNode) j src :
  l !! j = Some src ->
  buffer <$> <[j := markEnded src]> l = buffer <$> l.
Proof.
  intros H. rewrite list_fmap_insert. apply list_insert_id.
  rewrite list_lookup_fmap, H. reflexivity.
Qed.

Lemma stop_fields now s :
  isPlaying (stop now s) = false
  /\ isStreamComplete (stop now s) = true
  /\ audioQueue (stop now s) = []
  /\ processingBuffer (stop now s) = []
  /\ scheduledTime (stop now s) = now
  /\ checkInterval (stop now s) = None
  /\ started (stop now s) = started s
  /\ pushed (stop now s) = pushed s
  /\ endOfQueueAudioSource (stop now s) = endOfQueueAudioSource s
  /\ onCompleteCalls (stop now s) = onCompleteCalls s
  /\ timers (stop now s)
     = match checkInterval s with
       | Some id => filter (fun t => timerId t <> id) (timers s)
       | None => timers s
       end ++ [mkTimer (nextTimerId s) RebuildGain 200%Q].
Proof.
  unfold stop. simpl. destruct (checkInterval s) eqn:E; simpl;
    repeat match goal with |- _ /\ _ => split end;
    solve [reflexivity | exact E].
Qed.

(** While the queue and the remainder buffer are empty, nothing but
    [addPCM16] produces a frame or starts a source, and the marker stays
    where it is until its own source ends. *)
Lemma step_nothing_buffered now e s :
  notAddPCM16 e ->
  audioQueue s = [] ->
  processingBuffer s = [] ->
  audioQueue (step now e s) = []
  /\ processingBuffer (step now e s) = []
  /\ pushed (step now e s) = pushed s
  /\ buffer <$> started (step now e s) = buffer <$> started s
  /\ forall id src,
       e <> SourceEnded id ->
       endOfQueueAudioSource s = Some id ->
       started s !! id = Some src ->
       endOfQueueAudioSource (step now e s) = Some id
       /\ started (step now e s) !! id = Some src.
Proof.
  intros He Hq Hpb. destruct e; simpl in *; try contradiction.
  - rewrite (complete_empty now s Hpb). simpl. auto 10.
  - unfold stop. simpl. destruct (checkInterval s); simpl; auto 10.
  - auto 10.
  - unfold addWorkletEnter. destruct (_ !! _); [|destruct (inheritedName _)]; simpl; auto 10.
  - unfold addWorkletSettle.
    destruct outcome; [destruct (_ !! _); [|destruct (inheritedName _)]|]; simpl; auto 10.
  - unfold timerFired. destruct (find _ _) as [t|]; [|auto 10].
    destruct (timerHandler t).
    + rewrite Hq, Hpb. simpl.
      destruct (Nat.leb_spec bufferSize 0) as [Hle|_];
        [pose proof bufferSize_pos; lia|].
      auto 10.
    + rewrite scheduleNextBuffer_nothing_queued by exact Hq.
      rewrite rearm_audioQueue, rearm_processingBuffer, rearm_pushed,
        rearm_started, rearm_endOfQueueAudioSource.
      simpl. auto 10.
    + simpl. auto 10.
  - destruct (started s !! id) as [srcj|] eqn:Hj;
      [|rewrite (sourceEnded_missing id s Hj); auto 10].
    destruct (ended srcj) eqn:Hended;
      [rewrite (sourceEnded_ended id s srcj Hj Hended); auto 10|].
    rewrite (sourceEnded_started id s srcj Hj Hended).
    unfold sourceEnded. rewrite Hj, Hended.
    repeat split.
    + destruct (_ && _); exact Hq.
    + destruct (_ && _); exact Hpb.
    + destruct (_ && _); reflexivity.
    + apply fmap_markEnded, Hj.
    + simpl. destruct (bool_decide_reflect (endOfQueueAudioSource s = Some id))
        as [Hm|_]; [congruence|].
      rewrite andb_false_r. exact H0.
    + rewrite list_lookup_insert_ne by congruence. exact H1.
Qed.

Lemma run_nothing_buffered trace : forall s,
  Forall (fun te => notAddPCM16 te.2) trace ->
  audioQueue s = [] ->
  processingBuffer s = [] ->
  audioQueue (run trace s) = []
  /\ processingBuffer (run trace s) = []
  /\ pushed (run trace s) = pushed s
  /\ buffer <$> started (run trace s) = buffer <$> started s.
Proof.
  induction trace as [|te trace IH]; intros s Hall Hq Hpb; [auto|].
  inversion Hall as [|? ? Hte Hrest]; subst.
  destruct (step_nothing_buffered te.1 te.2 s Hte Hq Hpb)
    as (Hq' & Hpb' & Hpushed & Hbuf & _).
  destruct (IH (step te.1 te.2 s) Hrest Hq' Hpb') as (? & ? & Hp & Hb).
  change (run (te :: trace) s) with (run trace (step te.1 te.2 s)).
  rewrite Hp, Hb. auto.
Qed.


(** C6 (as the code has it).  When [stop()] returns, [isPlaying] is false,
    [isStreamComplete] is true, the queue and the remainder buffer are
    empty, the cursor is the clock reading of the call and the
    starvation-poll interval is cleared.  The timer table is the old one
    without the poll interval and with the gain-rebuild timeout added: a
    re-arm timeout set earlier is not cancelled.  Sources already started
    stay started.  From then on, until the next [addPCM16], whatever is
    called or fires, no frame is produced and no source is started. *)
Theorem stop_semantics (now : Q) (s : AudioStreamer) :
  isPlaying (stop now s) = false
  /\ isStreamComplete (stop now s) = true
  /\ audioQueue (stop now s) = []
  /\ processingBuffer (stop now s) = []
  /\ scheduledTime (stop now s) = now
  /\ checkInterval (stop now s) = None
  /\ timers (stop now s)
     = match checkInterval s with
       | Some id => filter (fun t => timerId t <> id) (timers s)
       | None => timers s
       end ++ [mkTimer (nextTimerId s) RebuildGain 200%Q]
  /\ started (stop now s) = started s
  /\ forall trace,
       Forall (fun te => notAddPCM16 te.2) trace ->
       audioQueue (run trace (stop now s)) = []
       /\ processingBuffer (run trace (stop now s)) = []
       /\ pushed (run trace (stop now s)) = pushed s
       /\ buffer <$> started (run trace (stop now s)) = buffer <$> started s.
Proof.
  destruct (stop_fields now s)
    as (H1 & H2 & H3 & H4 & H5 & H6 & H7 & H8 & _ & _ & H9).
  repeat match goal with |- _ /\ _ => split end; try assumption.
  intros trace Hall.
  destruct (run_nothing_buffered trace (stop now s) Hall H3 H4)
    as (? & ? & Hp & Hb).
  rewrite Hp, Hb, H7, H8. auto.
Qed.

Lemma stop_semantics_witness :
  audioQueue (run [(0.1%Q, TimerFired 1); (0.2%Q, Complete)]
                (stop 0 (addPCM16 0 (Uint8Array.of_bytes [Byte.x01; Byte.x00])
                           construct))) = [].
Proof.
  destruct (stop_semantics 0
              (addPCM16 0 (Uint8Array.of_bytes [Byte.x01; Byte.x00]) construct))
    as (_ & _ & _ & _ & _ & _ & _ & _ & H).
  apply (H [(0.1%Q, TimerFired 1); (0.2%Q, Complete)]).
  repeat constructor.
Defined.

(** The specification's reading fails: the re-arm timeout set by the first
    [addPCM16] is still in the timer table after [stop()]. *)
Lemma stop_leaves_rearm_timeout : ~ stopCancelsEveryTimer.
Proof.
  intros H.
  specialize (H [(0%Q, AddPCM16 (Uint8Array.of_bytes [Byte.x01; Byte.x00]))]
                0%Q).
  vm_compute in H. inversion H as [|t rest Hhandler _]. discriminate Hhandler.
Qed.



(** ** The end-of-queue marker *)

Lemma markerInvariant_same s s' :
  started s' = started s ->
  endOfQueueAudioSource s' = endOfQueueAudioSource s ->
  markerInvariant s -> markerInvariant s'.
Proof.
  intros Hst Hm Hinv id [src Hsrc]. rewrite Hm. apply Hinv.
  exists src. rewrite <- Hst. exact Hsrc.
Qed.

Lemma scheduleStep_markerInvariant now s s' :
  scheduleStep now s = Some s' -> markerInvariant s -> markerInvariant s'.
Proof.
  unfold scheduleStep.
  destruct (audioQueue s) as [|audioData rest]; [discriminate|].
  destruct (Qlt_le_dec _ _); [|discriminate].
  intros [= <-] Hinv id (src & Hsrc & Harmed & Hlive).
  destruct rest as [|next rest]; simpl in *.
  - f_equal.
    assert (Hcases : id < length (started s) \/ id = length (started s)).
    { apply lookup_lt_Some in Hsrc. rewrite length_app in Hsrc. simpl in Hsrc.
      destruct (endOfQueueAudioSource s); simpl in Hsrc;
        rewrite ?length_alter in Hsrc; lia. }
    destruct Hcases as [Hlt|Heq]; [exfalso|congruence].
    destruct (endOfQueueAudioSource s) as [old|] eqn:Hm; simpl in Hsrc.
    + rewrite lookup_app_l in Hsrc by (rewrite length_alter; exact Hlt).
      rewrite list_lookup_alter in Hsrc.
      destruct (decide (old = id)) as [->|Hne].
      * destruct (started s !! id); [|discriminate].
        injection Hsrc as <-. discriminate Harmed.
      * pose proof (Hinv id (ex_intro _ src (conj Hsrc (conj Harmed Hlive)))).
        congruence.
    + rewrite lookup_app_l in Hsrc by exact Hlt.
      pose proof (Hinv id (ex_intro _ src (conj Hsrc (conj Harmed Hlive)))).
      congruence.
  - assert (Hcases : id < length (started s) \/ id = length (started s)).
    { apply lookup_lt_Some in Hsrc. rewrite length_app in Hsrc. simpl in Hsrc.
      lia. }
    destruct Hcases as [Hlt | ->].
    + rewrite lookup_app_l in Hsrc by exact Hlt.
      apply Hinv. exists src. auto.
    + rewrite lookup_app_r, Nat.sub_diag in Hsrc by lia.
      injection Hsrc as <-. discriminate Harmed.
Qed.

Lemma scheduleNextBuffer_markerInvariant now s :
  markerInvariant s -> markerInvariant (scheduleNextBuffer now s).
Proof.
  intros Hinv. unfold scheduleNextBuffer.
  eapply markerInvariant_same;
    [apply rearm_started|apply rearm_endOfQueueAudioSource|].
  apply (scheduleLoop_invariant markerInvariant); [|exact Hinv].
  intros s1 s2 E. eapply scheduleStep_markerInvariant, E.
Qed.

Lemma sliceFrames_sources s :
  started (sliceFrames s) = started s
  /\ endOfQueueAudioSource (sliceFrames s) = endOfQueueAudioSource s.
Proof.
  unfold sliceFrames.
  apply (sliceLoop_invariant
           (fun s' => started s' = started s
                      /\ endOfQueueAudioSource s' = endOfQueueAudioSource s));
    [|auto].
  intros s1 s2 E [<- <-]. apply sliceStep_Some in E as [_ ->]. auto.
Qed.

Lemma ingest_markerInvariant chunk s :
  markerInvariant s -> markerInvariant (ingest chunk s).
Proof.
  unfold ingest. destruct (decodePCM16 chunk) as [float32Array errors].
  match goal with |- _ -> markerInvariant (sliceFrames ?x) =>
    destruct (sliceFrames_sources x) as [Hst Hm] end.
  apply markerInvariant_same; [rewrite Hst|rewrite Hm]; reflexivity.
Qed.

Lemma sourceEnded_markerInvariant id s :
  markerInvariant s -> markerInvariant (sourceEnded id s).
Proof.
  intros Hinv.
  destruct (started s !! id) as [srcj|] eqn:Hj;
    [|rewrite (sourceEnded_missing id s Hj); exact Hinv].
  destruct (ended srcj) eqn:Hended;
    [rewrite (sourceEnded_ended id s srcj Hj Hended); exact Hinv|].
  intros k (src & Hsrc & Harmed & Hlive).
  rewrite (sourceEnded_started id s srcj Hj Hended) in Hsrc.
  destruct (decide (k = id)) as [->|Hne].
  - rewrite list_lookup_insert_eq in Hsrc by (eapply lookup_lt_Some, Hj).
    injection Hsrc as <-. discriminate Hlive.
  - rewrite list_lookup_insert_ne in Hsrc by congruence.
    assert (Hm : endOfQueueAudioSource s = Some k)
      by (apply Hinv; exists src; auto).
    unfold sourceEnded. rewrite Hj, Hended. simpl.
    destruct (bool_decide_reflect (endOfQueueAudioSource s = Some id));
      [congruence|].
    rewrite andb_false_r. exact Hm.
Qed.

Lemma step_markerInvariant now e s :
  markerInvariant s -> markerInvariant (step now e s).
Proof.
  intros Hinv. destruct e; simpl.
  - unfold addPCM16. simpl.
    pose proof (ingest_markerInvariant chunk s Hinv) as Hin.
    destruct (isPlaying (ingest chunk s)); [exact Hin|].
    apply scheduleNextBuffer_markerInvariant.
    eapply markerInvariant_same; [| |exact Hin]; reflexivity.
  - unfold complete. simpl. destruct (processingBuffer s).
    + eapply markerInvariant_same; [| |exact Hinv]; reflexivity.
    + simpl. destruct (isPlaying s).
      * apply scheduleNextBuffer_markerInvariant.
        eapply markerInvariant_same; [| |exact Hinv]; reflexivity.
      * eapply markerInvariant_same; [| |exact Hinv]; reflexivity.
  - destruct (stop_fields now s)
      as (_ & _ & _ & _ & _ & _ & Hst & _ & Hm & _).
    eapply markerInvariant_same; [exact Hst|exact Hm|exact Hinv].
  - eapply markerInvariant_same; [| |exact Hinv]; reflexivity.
  - unfold addWorkletEnter.
    destruct (_ !! _); [|destruct (inheritedName _)]; (eapply markerInvariant_same; [| |exact Hinv]);
      reflexivity.
  - unfold addWorkletSettle.
    destruct outcome; [destruct (_ !! _); [|destruct (inheritedName _)]|];
      (eapply markerInvariant_same; [| |exact Hinv]); reflexivity.
  - unfold timerFired. destruct (find _ _) as [t|]; [|exact Hinv].
    destruct (timerHandler t).
    + destruct (_ || _); [|exact Hinv].
      apply scheduleNextBuffer_markerInvariant, Hinv.
    + apply scheduleNextBuffer_markerInvariant.
      eapply markerInvariant_same; [| |exact Hinv]; reflexivity.
    + eapply markerInvariant_same; [| |exact Hinv]; reflexivity.
  - apply sourceEnded_markerInvariant, Hinv.
Qed.

Lemma run_markerInvariant trace : forall s,
  markerInvariant s -> markerInvariant (run trace s).
Proof.
  induction trace as [|te trace IH]; intros s Hinv; [exact Hinv|].
  apply (IH (step te.1 te.2 s)), step_markerInvariant, Hinv.
Qed.

Lemma construct_markerInvariant : markerInvariant construct.
Proof. intros id (src & Hsrc & _). discriminate Hsrc. Qed.

(** C8.  In every state the streamer can reach, a source with a live
    completion hook is the one the marker field names, so at most one
    source is armed at any time; when a turn of the drain moves the marker
    away from a source, that source is no longer armed; and the [ended]
    event of a source that is not the current marker does not call
    [onComplete]. *)
Theorem end_of_queue_marker (trace : list (Q * Event)) :
  (forall id,
     armed (run trace construct) id ->
     endOfQueueAudioSource (run trace construct) = Some id)
  /\ (forall id1 id2,
        armed (run trace construct) id1 ->
        armed (run trace construct) id2 -> id1 = id2)
  /\ (forall now s' old,
        scheduleStep now (run trace construct) = Some s' ->
        endOfQueueAudioSource (run trace construct) = Some old ->
        endOfQueueAudioSource s' <> Some old ->
        ~ armed s' old)
  /\ (forall id,
        endOfQueueAudioSource (run trace construct) <> Some id ->
        onCompleteCalls (sourceEnded id (run trace construct))
        = onCompleteCalls (run trace construct)).
Proof.
  pose proof (run_markerInvariant trace construct construct_markerInvariant)
    as Hinv.
  split; [exact Hinv|]. split; [|split].
  - intros id1 id2 H1 H2. apply Hinv in H1, H2. congruence.
  - intros now s' old E _ Hmoved Harmed.
    apply Hmoved.
    apply (scheduleStep_markerInvariant now _ s' E Hinv old Harmed).
  - intros id Hne.
    destruct (Nat.eq_dec (onCompleteCalls (sourceEnded id (run trace construct)))
                (onCompleteCalls (run trace construct))) as [Heq|Hfired];
      [exact Heq|].
    apply sourceEnded_fires in Hfired as (_ & Hm & _). contradiction.
Qed.

Lemma end_of_queue_marker_witness :
  endOfQueueAudioSource
    (run [(0%Q, AddPCM16 (Uint8Array.of_bytes [Byte.x01; Byte.x00]));
          (0%Q, Complete)] construct) = Some 0.
Proof.
  apply (proj1 (end_of_queue_marker
                  [(0%Q, AddPCM16 (Uint8Array.of_bytes [Byte.x01; Byte.x00]));
                   (0%Q, Complete)])).
  eexists. split; [vm_compute; reflexivity|]. split; reflexivity.
Defined.

(** ** The worklet registry *)

Lemma addWorklet_new workletName handler outcome s :
  registry s !! workletName = None ->
  inheritedName workletName = false ->
  addWorklet workletName handler outcome s
  = match outcome with
    | Loaded worklet =>
        (with_registeredWorklets
           (Some (<[workletName := mkGraph [handler] (Some worklet)]>
                    (registry s))) s,
         Resolved)
    | LoadFailed =>
        (with_consoleErrors (S (consoleErrors s))
           (with_registeredWorklets
              (Some (<[workletName := mkGraph [handler] None]> (registry s)))
              s),
         Rejected)
    end.
Proof.
  unfold registry, addWorklet, addWorkletEnter. intros H Hinh.
  rewrite H, Hinh. unfold addWorkletSettle. simpl.
  destruct outcome as [worklet|]; [|reflexivity].
  rewrite lookup_insert_eq. simpl. rewrite insert_insert_eq. reflexivity.
Qed.

Lemma addWorklet_registered workletName handler outcome s graph :
  registry s !! workletName = Some graph ->
  addWorklet workletName handler outcome s
  = (with_registeredWorklets
       (Some (<[workletName := mkGraph (handlers graph ++ [handler])
                                       (node graph)]> (registry s))) s,
     Resolved).
Proof.
  unfold registry, addWorklet, addWorkletEnter. intros H. rewrite H.
  reflexivity.
Qed.

(** A name inherited from [Object.prototype] and not in the registry: the
    call stops at line 53. *)
Lemma addWorklet_inherited workletName handler outcome s :
  registry s !! workletName = None ->
  inheritedName workletName = true ->
  addWorklet workletName handler outcome s
  = (with_registeredWorklets (Some (registry s)) s, Rejected).
Proof.
  unfold registry, addWorklet, addWorkletEnter. intros H Hinh.
  rewrite H, Hinh. reflexivity.
Qed.

(** The nodes a new source is connected to are the nodes of the entries
    that have one. *)
Lemma elem_of_workletNodes s n :
  n ∈ workletNodes s
  <-> exists workletName graph,
        registry s !! workletName = Some graph /\ node graph = Some n.
Proof.
  unfold workletNodes, registry.
  destruct (registeredWorklets s) as [worklets|]; simpl.
  - rewrite list_elem_of_omap. split.
    + intros ([workletName graph] & Hin & Hnode).
      apply elem_of_map_to_list in Hin. eauto.
    + intros (workletName & graph & Hin & Hnode).
      exists (workletName, graph). split; [|exact Hnode].
      apply elem_of_map_to_list, Hin.
  - split; [intros Hin; inversion Hin|].
    intros (workletName & graph & Hin & _).
    rewrite lookup_empty in Hin. discriminate Hin.
Qed.

(** An entry without a node adds nothing to the fan-out. *)
Lemma workletNodes_insert_no_node s s' workletName handlers0 n :
  registry s !! workletName = None ->
  registry s' = <[workletName := mkGraph handlers0 None]> (registry s) ->
  n ∈ workletNodes s' <-> n ∈ workletNodes s.
Proof.
  intros Hnew Hreg. rewrite !elem_of_workletNodes. rewrite Hreg.
  split; intros (name & graph & Hin & Hnode).
  - destruct (decide (workletName = name)) as [<-|Hne].
    + rewrite lookup_insert_eq in Hin. injection Hin as <-.
      discriminate Hnode.
    + rewrite lookup_insert_ne in Hin by exact Hne. eauto.
  - exists name, graph. split; [|exact Hnode].
    rewrite lookup_insert_ne; [exact Hin|]. congruence.
Qed.

(** C9 (as the code has it).  A call of [addWorklet] for a name that is not
    registered, and is not a property name that the registry object
    inherits, enters the name in the registry, with the handler and no
    node, before it loads the module.  When the load fails, the error is
    logged and the promise is rejected with it, and that entry stays: the
    name is registered without a node, and sources started later are
    connected to the same nodes as before.  When the load succeeds the node
    is added to the entry.  A call for a name that is registered appends
    the handler to the entry's list, keeps its node (or its lack of one)
    and loads nothing.  A call for an unregistered name that the registry
    object inherits ([toString], [constructor], ...) is rejected at line
    53: nothing is entered, loaded or logged.  Entries under other names
    are not touched. *)
Theorem addWorklet_registry (workletName : string) (handler : MessageHandler)
    (s : AudioStreamer) :
  (registry s !! workletName = None ->
   inheritedName workletName = false ->
   (addWorklet workletName handler LoadFailed s).2 = Rejected
   /\ consoleErrors (addWorklet workletName handler LoadFailed s).1
      = S (consoleErrors s)
   /\ registry (addWorklet workletName handler LoadFailed s).1 !! workletName
      = Some (mkGraph [handler] None)
   /\ (forall n,
         n ∈ workletNodes (addWorklet workletName handler LoadFailed s).1
         <-> n ∈ workletNodes s)
   /\ forall worklet,
        (addWorklet workletName handler (Loaded worklet) s).2 = Resolved
        /\ registry (addWorklet workletName handler (Loaded worklet) s).1
             !! workletName
           = Some (mkGraph [handler] (Some worklet)))
  /\ (forall graph outcome,
        registry s !! workletName = Some graph ->
        (addWorklet workletName handler outcome s).2 = Resolved
        /\ registry (addWorklet workletName handler outcome s).1 !! workletName
           = Some (mkGraph (handlers graph ++ [handler]) (node graph))
        /\ consoleErrors (addWorklet workletName handler outcome s).1
           = consoleErrors s)
  /\ (forall outcome,
        registry s !! workletName = None ->
        inheritedName workletName = true ->
        (addWorklet workletName handler outcome s).2 = Rejected
        /\ registry (addWorklet workletName handler outcome s).1 = registry s
        /\ consoleErrors (addWorklet workletName handler outcome s).1
           = consoleErrors s)
  /\ (forall other outcome,
        other <> workletName ->
        registry (addWorklet workletName handler outcome s).1 !! other
        = registry s !! other).
Proof.
  split; [|split; [|split]].
  - intros H Hinh. rewrite !(addWorklet_new _ _ _ _ H Hinh). simpl.
    split; [reflexivity|]. split; [reflexivity|].
    split; [apply lookup_insert_eq|]. split.
    + intros n.
      apply (workletNodes_insert_no_node s _ workletName [handler]);
        [exact H|reflexivity].
    + intros worklet. rewrite (addWorklet_new _ _ _ _ H Hinh). simpl.
      split; [reflexivity|apply lookup_insert_eq].
  - intros graph outcome H. rewrite (addWorklet_registered _ _ _ _ _ H). simpl.
    split; [reflexivity|]. split; [apply lookup_insert_eq|reflexivity].
  - intros outcome H Hinh. rewrite (addWorklet_inherited _ _ _ _ H Hinh).
    auto.
  - intros other outcome Hne.
    destruct (registry s !! workletName) as [graph|] eqn:H.
    + rewrite (addWorklet_registered _ _ _ _ _ H). simpl.
      apply lookup_insert_ne. congruence.
    + destruct (inheritedName workletName) eqn:Hinh.
      * rewrite (addWorklet_inherited _ _ _ _ H Hinh). reflexivity.
      * rewrite (addWorklet_new _ _ _ _ H Hinh).
        destruct outcome; simpl; apply lookup_insert_ne; congruence.
Qed.

Lemma addWorklet_registry_witness :
  registry (addWorklet "vumeter-out" 7 LoadFailed construct).1 !! "vumeter-out"
  = Some (mkGraph [7] None)
  /\ registry (addWorklet "vumeter-out" 8 LoadFailed
                 (addWorklet "vumeter-out" 7 LoadFailed construct).1).1
       !! "vumeter-out"
     = Some (mkGraph [7; 8] None)
  /\ (addWorklet "toString" 7 LoadFailed construct).2 = Rejected
  /\ consoleErrors (addWorklet "toString" 7 LoadFailed construct).1 = 0.
Proof.
  assert (H1 : registry (addWorklet "vumeter-out" 7 LoadFailed construct).1
                 !! "vumeter-out" = Some (mkGraph [7] None)).
  { apply (proj1 (addWorklet_registry "vumeter-out" 7 construct));
      reflexivity. }
  split; [exact H1|]. split.
  - apply (proj1 (proj2 (addWorklet_registry "vumeter-out" 8
                           (addWorklet "vumeter-out" 7 LoadFailed construct).1))
             (mkGraph [7] None) LoadFailed H1).
  - destruct (proj1 (proj2 (proj2 (addWorklet_registry "toString" 7 construct)))
                LoadFailed eq_refl eq_refl) as (Hrej & _ & Herr).
    split; [exact Hrej|exact Herr].
Defined.

(** The specification's reading fails: after a failed load the name has an
    entry. *)
Lemma failed_load_leaves_entry : ~ failedLoadLeavesNoEntry.
Proof.
  intros H. specialize (H "vumeter-out" 7 construct eq_refl).
  rewrite (addWorklet_new "vumeter-out" 7 LoadFailed construct eq_refl eq_refl)
    in H.
  simpl in H. unfold registry in H. simpl in H.
  rewrite lookup_insert_eq in H. discriminate H.
Qed.

(** ** Where the pushed frames are *)

Lemma fmap_disarm (l : list AudioBufferSourceNode) old :
  buffer <$> alter disarm old l = buffer <$> l.
Proof.
  apply list_eq. intros i. rewrite !list_lookup_fmap, list_lookup_alter.
  destruct (decide (old = i)) as [->|_]; [|reflexivity].
  destruct (l !! i); reflexivity.
Qed.

Lemma scheduleStep_accounted now s s' :
  scheduleStep now s = Some s' -> accounted s -> accounted s'.
Proof.
  unfold scheduleStep, accounted.
  destruct (audioQueue s) as [|audioData rest]; [discriminate|].
  destruct (Qlt_le_dec _ _); [|discriminate].
  intros [= <-] H.
  destruct rest as [|next rest]; simpl.
  - destruct (endOfQueueAudioSource s); simpl;
      rewrite H, fmap_app, ?fmap_disarm, app_nil_r; reflexivity.
  - rewrite H, fmap_app, <- app_assoc. reflexivity.
Qed.

Lemma scheduleNextBuffer_accounted now s :
  accounted s -> accounted (scheduleNextBuffer now s).
Proof.
  intros H. unfold scheduleNextBuffer, accounted.
  rewrite rearm_pushed, rearm_started, rearm_audioQueue.
  apply (scheduleLoop_invariant accounted); [|exact H].
  intros s1 s2 E. eapply scheduleStep_accounted, E.
Qed.

Lemma ingest_accounted chunk s : accounted s -> accounted (ingest chunk s).
Proof.
  intros H. unfold ingest. destruct (decodePCM16 chunk) as [float32Array errors].
  unfold sliceFrames. apply (sliceLoop_invariant accounted); [|exact H].
  intros s1 s2 E Hacc. apply sliceStep_Some in E as [_ ->].
  unfold accounted in *. simpl. rewrite Hacc, app_assoc. reflexivity.
Qed.

Lemma step_accounted now e s :
  e <> Stop -> accounted s -> accounted (step now e s).
Proof.
  intros Hstop H. destruct e; simpl; try congruence.
  - unfold addPCM16. simpl.
    pose proof (ingest_accounted chunk s H) as Hin.
    destruct (isPlaying (ingest chunk s)); [exact Hin|].
    apply scheduleNextBuffer_accounted. exact Hin.
  - unfold complete. simpl. destruct (processingBuffer s) as [|x pb].
    + exact H.
    + assert (Hflushed : accounted
        (with_processingBuffer []
           (push (x :: pb) (with_isStreamComplete true s)))).
      { unfold accounted in *. simpl. rewrite H, app_assoc. reflexivity. }
      simpl. destruct (isPlaying s); [|exact Hflushed].
      apply scheduleNextBuffer_accounted, Hflushed.
  - exact H.
  - unfold addWorkletEnter. destruct (_ !! _); [|destruct (inheritedName _)]; exact H.
  - unfold addWorkletSettle. destruct outcome; [destruct (_ !! _); [|destruct (inheritedName _)]|]; exact H.
  - unfold timerFired. destruct (find _ _) as [t|]; [|exact H].
    destruct (timerHandler t).
    + destruct (_ || _); [|exact H]. apply scheduleNextBuffer_accounted, H.
    + apply scheduleNextBuffer_accounted. exact H.
    + exact H.
  - destruct (started s !! id) as [srcj|] eqn:Hj;
      [|rewrite (sourceEnded_missing id s Hj); exact H].
    destruct (ended srcj) eqn:Hended;
      [rewrite (sourceEnded_ended id s srcj Hj Hended); exact H|].
    unfold accounted.
    rewrite (sourceEnded_started id s srcj Hj Hended), (fmap_markEnded _ _ _ Hj).
    unfold sourceEnded. rewrite Hj, Hended. destruct (_ && _); exact H.
Qed.

(** Without [stop()], no pushed frame disappears. *)
Lemma run_accounted trace :
  noStop trace -> accounted (run trace construct).
Proof.
  assert (H : forall s, noStop trace -> accounted s -> accounted (run trace s)).
  { induction trace as [|te trace IH]; intros s Hstop Hacc; [exact Hacc|].
    inversion Hstop as [|? ? Hte Hrest]; subst.
    apply (IH (step te.1 te.2 s) Hrest), step_accounted; assumption. }
  intros Hstop. apply H; [exact Hstop|reflexivity].
Qed.

(** * Further properties *)

(** * More on the decoder *)

Lemma byteZ_range b : (0 <= byteZ b <= 255)%Z.
Proof. unfold byteZ. pose proof (Byte.to_N_bounded b). lia. Qed.

Lemma toInt16_range lo hi :
  (-32768 <= toInt16 (byteZ lo + 256 * byteZ hi) <= 32767)%Z.
Proof.
  pose proof (byteZ_range lo). pose proof (byteZ_range hi).
  unfold toInt16. destruct (Z.ltb_spec (byteZ lo + 256 * byteZ hi) 32768); lia.
Qed.

Lemma normalize_inRange v :
  (-32768 <= v <= 32767)%Z -> inRange (normalize v).
Proof.
  intros H. unfold inRange, normalize, Qle, Qlt. simpl. lia.
Qed.

Lemma getInt16_range dataView i v :
  getInt16 dataView i = Some v -> (-32768 <= v <= 32767)%Z.
Proof.
  unfold getInt16.
  destruct (dataView !! i) as [lo|]; [|discriminate].
  destruct (dataView !! S i) as [hi|]; [|discriminate].
  intros [= <-]. apply toInt16_range.
Qed.

(** X2.  Every sample the decoder yields lies in [[-1, 1)], whatever the
    bytes of the chunk and of its buffer. *)
Lemma decodePCM16_inRange chunk : Forall inRange (decodePCM16 chunk).1.
Proof.
  unfold decodePCM16.
  assert (H : forall indices acc,
            Forall inRange acc.1 ->
            Forall inRange
              (fold_left (decodeStep (Uint8Array.buffer chunk)) indices acc).1).
  { induction indices as [|i indices IH]; intros acc Hacc; [exact Hacc|].
    simpl. apply IH. unfold decodeStep.
    destruct (getInt16 _ _) as [v|] eqn:E; simpl; [|exact Hacc].
    apply Forall_insert; [exact Hacc|].
    apply normalize_inRange, (getInt16_range _ _ _ E). }
  apply H. simpl. apply Forall_replicate.
  unfold inRange, Qle, Qlt. simpl. lia.
Qed.

(** The extreme samples are reached: [0x8000] decodes to -1 and [0x7fff] to
    32767/32768. *)
Example decodePCM16_extremes :
  (decodePCM16 (Uint8Array.of_bytes
                  [Byte.x00; Byte.x80; Byte.xff; Byte.x7f])).1
  = [normalize (-32768); normalize 32767].
Proof. reflexivity. Qed.

Lemma decodeFold_no_fault dataView n acc :
  (forall i, i < n -> is_Some (getInt16 dataView (i * 2))) ->
  (fold_left (decodeStep dataView) (seq 0 n) acc).2 = acc.2.
Proof.
  induction n as [|n IH]; intros Hall; [reflexivity|].
  rewrite seq_S, fold_left_app. simpl. unfold decodeStep at 1.
  destruct (Hall n (Nat.lt_succ_diag_r n)) as [v ->]. simpl.
  apply IH. intros i Hi. apply Hall. lia.
Qed.

Lemma getInt16_is_Some dataView i :
  S i < length dataView -> is_Some (getInt16 dataView i).
Proof.
  intros H. unfold getInt16.
  destruct (lookup_lt_is_Some_2 dataView i ltac:(lia)) as [lo ->].
  destruct (lookup_lt_is_Some_2 dataView (S i) H) as [hi ->]. eauto.
Qed.

Lemma getInt16_out_of_range dataView i :
  length dataView <= S i -> getInt16 dataView i = None.
Proof.
  intros H. unfold getInt16.
  rewrite (proj2 (lookup_ge_None dataView (S i)) H).
  destruct (dataView !! i); reflexivity.
Qed.

(** The only decode fault a chunk inside its buffer can cause: the turn of
    the loop for the odd last byte, when the chunk spans the whole buffer.
    Then the read is out of range; otherwise it reads the byte after the
    chunk and the store falls outside the array. *)
Lemma decodePCM16_faults chunk :
  Uint8Array.length chunk <= length (Uint8Array.buffer chunk) ->
  (decodePCM16 chunk).2 = decodeFaults chunk.
Proof.
  intros Hwf. unfold decodePCM16, decodeIndices, decodeFaults.
  set (L := Uint8Array.length chunk) in *.
  set (buf := Uint8Array.buffer chunk) in *.
  rewrite Nat.div2_div.
  pose proof (Nat.div_mod_eq L 2) as Hdm.
  pose proof (Nat.mod_upper_bound L 2 ltac:(lia)) as Hmod.
  destruct (Nat.odd L) eqn:Hodd.
  - assert (HL : L = 2 * (L / 2) + 1).
    { apply Nat.odd_spec in Hodd. destruct Hodd as [m Hm].
      assert (L mod 2 = 1)
        by (rewrite Hm, Nat.add_comm, Nat.mul_comm, Nat.Div0.mod_add;
            reflexivity).
      lia. }
    assert (Hn : S L / 2 = S (L / 2)).
    { symmetry. apply (Nat.div_unique (S L) 2 (S (L / 2)) 0); lia. }
    rewrite Hn, seq_S, fold_left_app, Nat.add_0_l. cbn [fold_left].
    match goal with |- context [fold_left ?f (seq 0 (L / 2)) ?a] =>
      set (acc := fold_left f (seq 0 (L / 2)) a) end.
    assert (Hacc : acc.2 = 0).
    { unfold acc. rewrite decodeFold_no_fault; [reflexivity|].
      intros i Hi. apply getInt16_is_Some. lia. }
    unfold decodeStep.
    destruct (Nat.eqb_spec (length buf) L) as [Heq|Hne].
    + rewrite getInt16_out_of_range by lia. simpl. rewrite Hacc. reflexivity.
    + destruct (getInt16_is_Some buf (L / 2 * 2) ltac:(lia)) as [v ->].
      simpl. exact Hacc.
  - assert (HL : L = 2 * (L / 2)).
    { assert (Heven : Nat.even L = true)
        by (rewrite <- Nat.negb_odd, Hodd; reflexivity).
      apply Nat.even_spec in Heven. destruct Heven as [m Hm].
      assert (L mod 2 = 0)
        by (rewrite Hm, Nat.mul_comm, Nat.Div0.mod_mul; reflexivity).
      lia. }
    assert (Hn : S L / 2 = L / 2).
    { symmetry. apply (Nat.div_unique (S L) 2 (L / 2) 1); lia. }
    rewrite Hn. rewrite decodeFold_no_fault; [reflexivity|].
    intros i Hi. apply getInt16_is_Some. lia.
Qed.

(** X1.  For a chunk that lies inside its buffer, the decoder yields the
    16-bit little-endian PCM reading of the first [chunk.length] bytes of
    the buffer, a trailing odd byte dropped; when the chunk starts at the
    first byte of the buffer, these are the chunk's own bytes. *)
Theorem decoder_reads_buffer_prefix (chunk : Uint8Array.t) :
  Uint8Array.wf chunk ->
  (decodePCM16 chunk).1
  = pcm16Samples (take (Uint8Array.length chunk) (Uint8Array.buffer chunk))
  /\ (Uint8Array.byteOffset chunk = 0 ->
      (decodePCM16 chunk).1 = pcm16Samples (Uint8Array.bytes chunk)).
Proof.
  intros Hwf. split.
  - apply decodePCM16_buffer. unfold Uint8Array.wf in Hwf. lia.
  - intros H0. apply decodePCM16_offset0; assumption.
Qed.

Lemma decoder_reads_buffer_prefix_witness :
  (decodePCM16 (Uint8Array.of_bytes [Byte.x34; Byte.x12; Byte.xff])).1
  = pcm16Samples
      (Uint8Array.bytes (Uint8Array.of_bytes [Byte.x34; Byte.x12; Byte.xff])).
Proof.
  refine (proj2 (decoder_reads_buffer_prefix
                   (Uint8Array.of_bytes [Byte.x34; Byte.x12; Byte.xff]) _)
            eq_refl).
  unfold Uint8Array.wf. simpl. lia.
Defined.

(** * More on frame assembly *)

(** What the slicing loop does, for any fuel that covers the buffer. *)
Lemma sliceLoop_frames fuel : forall s,
  length (processingBuffer s) <= fuel ->
  exists new,
    pushed (sliceLoop fuel s) = pushed s ++ new
    /\ audioQueue (sliceLoop fuel s) = audioQueue s ++ new
    /\ Forall (fun frame => length frame = bufferSize) new
    /\ length (processingBuffer s)
       = bufferSize * length new + length (processingBuffer (sliceLoop fuel s))
    /\ length (processingBuffer (sliceLoop fuel s)) < bufferSize
    /\ concat new ++ processingBuffer (sliceLoop fuel s) = processingBuffer s.
Proof.
  pose proof bufferSize_pos as Hpos.
  induction fuel as [|fuel IH]; intros s Hfuel; simpl.
  - exists []. rewrite !app_nil_r. simpl. repeat split; auto; lia.
  - destruct (sliceStep s) as [s'|] eqn:E.
    + apply sliceStep_Some in E as [Hle ->].
      destruct (IH (with_processingBuffer (drop bufferSize (processingBuffer s))
                      (push (take bufferSize (processingBuffer s)) s)))
        as (new & Hp & Hq & Hall & Hlen & Hlt & Hcat).
      { simpl. rewrite length_drop. lia. }
      simpl in Hp, Hq, Hlen, Hcat. rewrite length_drop in Hlen.
      exists (take bufferSize (processingBuffer s) :: new).
      rewrite Hp, Hq, <- !app_assoc. simpl.
      repeat split; auto.
      * constructor; [|exact Hall]. rewrite length_take. lia.
      * lia.
      * rewrite <- app_assoc, Hcat. apply take_drop.
    + apply sliceStep_None in E. exists [].
      rewrite !app_nil_r. simpl. repeat split; auto; lia.
Qed.

Lemma sliceFrames_consoleErrors s :
  consoleErrors (sliceFrames s) = consoleErrors s.
Proof.
  unfold sliceFrames.
  apply (sliceLoop_invariant (fun s' => consoleErrors s' = consoleErrors s));
    [|reflexivity].
  intros s1 s2 E <-. apply sliceStep_Some in E as [_ ->]. reflexivity.
Qed.

(** What ingesting a chunk adds to the queue. *)
Lemma ingest_frames chunk s :
  exists new,
    pushed (ingest chunk s) = pushed s ++ new
    /\ audioQueue (ingest chunk s) = audioQueue s ++ new
    /\ Forall (fun frame => length frame = bufferSize) new
    /\ length new
       = (length (processingBuffer s) + Uint8Array.length chunk / 2)
         / bufferSize
    /\ length (processingBuffer (ingest chunk s))
       = (length (processingBuffer s) + Uint8Array.length chunk / 2)
         mod bufferSize
    /\ concat new ++ processingBuffer (ingest chunk s)
       = processingBuffer s ++ (decodePCM16 chunk).1.
Proof.
  unfold ingest. pose proof (decodePCM16_length chunk) as Hdec.
  set (n := Uint8Array.length chunk / 2) in *.
  destruct (decodePCM16 chunk) as [float32Array errors]. simpl in Hdec.
  match goal with |- context [sliceFrames ?x] => set (s1 := x) end.
  destruct (sliceLoop_frames (length (processingBuffer s1)) s1 (Nat.le_refl _))
    as (new & Hp & Hq & Hall & Hlen & Hlt & Hcat).
  fold (sliceFrames s1) in Hp, Hq, Hlen, Hlt, Hcat.
  assert (H1 : length (processingBuffer s1) = length (processingBuffer s) + n)
    by (unfold s1; simpl; rewrite length_app; lia).
  rewrite H1 in Hlen.
  exists new. cbn [fst].
  split; [exact Hp|]. split; [exact Hq|]. split; [exact Hall|].
  split; [eapply Nat.div_unique; [exact Hlt|exact Hlen]|].
  split; [eapply Nat.mod_unique; [exact Hlt|exact Hlen]|].
  exact Hcat.
Qed.

(** X4.  With [r] samples in the remainder buffer, a call of [addPCM16]
    with a chunk of [n] complete byte pairs pushes exactly
    [(r + n) / bufferSize] frames, each of exactly [bufferSize] samples,
    and leaves [(r + n) mod bufferSize] samples in the remainder buffer;
    the new frames followed by the new remainder are the old remainder
    followed by the decoded samples. *)
Theorem addPCM16_frames (now : Q) (chunk : Uint8Array.t) (s : AudioStreamer) :
  exists new,
    pushed (addPCM16 now chunk s) = pushed s ++ new
    /\ Forall (fun frame => length frame = bufferSize) new
    /\ length new
       = (length (processingBuffer s) + Uint8Array.length chunk / 2)
         / bufferSize
    /\ length (processingBuffer (addPCM16 now chunk s))
       = (length (processingBuffer s) + Uint8Array.length chunk / 2)
         mod bufferSize
    /\ concat new ++ processingBuffer (addPCM16 now chunk s)
       = processingBuffer s ++ (decodePCM16 chunk).1.
Proof.
  destruct (ingest_frames chunk s) as (new & Hp & _ & Hall & Hdiv & Hmod & Hcat).
  exists new. unfold addPCM16. cbv zeta.
  destruct (isPlaying (ingest chunk s)); [auto|].
  rewrite scheduleNextBuffer_pushed, scheduleNextBuffer_processingBuffer.
  auto.
Qed.

(** * Invariants of the buffers *)

Lemma scheduleStep_buffers now s s' :
  scheduleStep now s = Some s' ->
  exists audioData,
    audioQueue s = audioData :: audioQueue s'
    /\ buffer <$> started s' = (buffer <$> started s) ++ [audioData].
Proof.
  intros E. apply scheduleStep_started in E
    as (audioData & earlier & src & Hq & Hst & Hlen & Hold & Hbuf & _).
  exists audioData. split; [exact Hq|].
  rewrite Hst, fmap_app. simpl. rewrite Hbuf. f_equal.
  apply list_eq. intros i. rewrite !list_lookup_fmap.
  destruct (earlier !! i) as [o|] eqn:Ho.
  - destruct (Hold i o Ho) as (o' & Ho' & Hb & _).
    rewrite Ho'. simpl. rewrite Hb. reflexivity.
  - apply lookup_ge_None in Ho. rewrite Hlen in Ho.
    apply lookup_ge_None in Ho. rewrite Ho. reflexivity.
Qed.

Lemma sourceEnded_buffers id s :
  isPlaying (sourceEnded id s) = isPlaying s
  /\ audioQueue (sourceEnded id s) = audioQueue s
  /\ buffer <$> started (sourceEnded id s) = buffer <$> started s.
Proof.
  destruct (started s !! id) as [src|] eqn:Hsrc;
    [|rewrite (sourceEnded_missing id s Hsrc); auto].
  destruct (ended src) eqn:Hended;
    [rewrite (sourceEnded_ended id s src Hsrc Hended); auto|].
  rewrite (sourceEnded_started id s src Hsrc Hended), (fmap_markEnded _ _ _ Hsrc).
  unfold sourceEnded. rewrite Hsrc, Hended.
  destruct (_ && _); auto.
Qed.

Lemma buffersBounded_same s s' :
  processingBuffer s' = processingBuffer s ->
  audioQueue s' = audioQueue s ->
  buffer <$> started s' = buffer <$> started s ->
  pushed s' = pushed s ->
  buffersBounded s -> buffersBounded s'.
Proof. unfold buffersBounded. intros -> -> -> ->. auto. Qed.

Lemma scheduleNextBuffer_buffersBounded now s :
  buffersBounded s -> buffersBounded (scheduleNextBuffer now s).
Proof.
  intros H. unfold scheduleNextBuffer.
  eapply buffersBounded_same;
    [apply rearm_processingBuffer|apply rearm_audioQueue
    |rewrite rearm_started; reflexivity|apply rearm_pushed|].
  apply (scheduleLoop_invariant buffersBounded); [|exact H].
  intros s1 s2 E (Hpb & Hq & Hst & Hp).
  pose proof (scheduleStep_processingBuffer now s1 s2 E) as Epb.
  pose proof (scheduleStep_pushed now s1 s2 E) as Ep.
  apply scheduleStep_buffers in E as (audioData & Eq & Est).
  unfold buffersBounded. rewrite Epb, Ep, Est.
  rewrite Eq in Hq. inversion Hq as [|? ? Hhead Htail]; subst.
  repeat split; auto. apply Forall_app. auto.
Qed.

Lemma ingest_started chunk s : started (ingest chunk s) = started s.
Proof.
  unfold ingest. destruct (decodePCM16 chunk).
  match goal with |- started (sliceFrames ?x) = _ =>
    destruct (sliceFrames_sources x) as [-> _] end.
  reflexivity.
Qed.

Lemma ingest_buffersBounded chunk s :
  buffersBounded s -> buffersBounded (ingest chunk s).
Proof.
  intros (Hpb & Hq & Hst & Hp).
  destruct (ingest_frames chunk s) as (new & Ep & Eq & Hall & _ & Emod & _).
  pose proof bufferSize_pos as Hpos.
  assert (Hnew : Forall frameOk new).
  { eapply Forall_impl; [exact Hall|]. intros f Hf. simpl in Hf. unfold frameOk. lia. }
  unfold buffersBounded. rewrite Ep, Eq, Emod, ingest_started.
  repeat split; auto; try (apply Forall_app; auto).
  apply Nat.mod_upper_bound. lia.
Qed.

Lemma step_buffersBounded now e s :
  buffersBounded s -> buffersBounded (step now e s).
Proof.
  intros H. destruct e; simpl.
  - unfold addPCM16. simpl.
    pose proof (ingest_buffersBounded chunk s H) as Hin.
    destruct (isPlaying (ingest chunk s)); [exact Hin|].
    apply scheduleNextBuffer_buffersBounded.
    eapply buffersBounded_same; [| | | |exact Hin]; reflexivity.
  - unfold complete. simpl. destruct (processingBuffer s) as [|x pb] eqn:Epb.
    + eapply buffersBounded_same; [| | | |exact H]; simpl; auto.
    + assert (Hflushed : buffersBounded
        (with_processingBuffer []
           (push (x :: pb) (with_isStreamComplete true s)))).
      { destruct H as (Hpb & Hq & Hst & Hp). rewrite Epb in Hpb.
        assert (frameOk (x :: pb)) by (unfold frameOk; simpl in *; lia).
        unfold buffersBounded. simpl.
        repeat split; auto; try (apply Forall_app; auto).
        apply bufferSize_pos. }
      simpl. destruct (isPlaying s); [|exact Hflushed].
      apply scheduleNextBuffer_buffersBounded, Hflushed.
  - destruct (stop_fields now s)
      as (_ & _ & Hq & Hpb & _ & _ & Hst & Hp & _).
    destruct H as (_ & _ & Hst' & Hp').
    unfold buffersBounded. rewrite Hq, Hpb, Hst, Hp.
    repeat split; auto. apply bufferSize_pos.
  - exact H.
  - unfold addWorkletEnter. destruct (_ !! _); [|destruct (inheritedName _)]; exact H.
  - unfold addWorkletSettle. destruct outcome; [destruct (_ !! _); [|destruct (inheritedName _)]|]; exact H.
  - unfold timerFired. destruct (find _ _) as [t|]; [|exact H].
    destruct (timerHandler t).
    + destruct (_ || _); [|exact H].
      apply scheduleNextBuffer_buffersBounded, H.
    + apply scheduleNextBuffer_buffersBounded. exact H.
    + exact H.
  - destruct (sourceEnded_buffers id s) as (_ & Hq & Hst).
    destruct (sourceEnded_content id s) as [Hp Hpb].
    eapply buffersBounded_same; [exact Hpb|exact Hq|exact Hst|exact Hp|exact H].
Qed.

(** X5.  In every state the streamer can reach, the remainder buffer holds
    less than one frame and every frame, queued, started or ever pushed, has
    between 1 and [bufferSize] samples.  So the poll callback's test
    [processingBuffer.length >= bufferSize] is never true, and
    [createBuffer] is never asked for an empty buffer. *)
Lemma run_buffersBounded trace :
  buffersBounded (run trace construct)
  /\ (bufferSize <=? length (processingBuffer (run trace construct))) = false.
Proof.
  assert (H : forall s, buffersBounded s -> buffersBounded (run trace s)).
  { induction trace as [|te trace IH]; intros s Hs; [exact Hs|].
    apply (IH (step te.1 te.2 s)), step_buffersBounded, Hs. }
  assert (H0 : buffersBounded construct).
  { unfold buffersBounded. simpl. repeat split; auto. apply bufferSize_pos. }
  split; [apply H, H0|].
  destruct (H construct H0) as [Hpb _]. apply Nat.leb_gt, Hpb.
Qed.

(** * A streamer that is not playing is empty *)

Lemma scheduleLoop_isPlaying now fuel s :
  isPlaying (scheduleLoop fuel now s) = isPlaying s.
Proof.
  apply (scheduleLoop_invariant (fun s' => isPlaying s' = isPlaying s));
    [|reflexivity].
  intros s1 s2 E <-. eapply scheduleStep_isPlaying, E.
Qed.

Lemma scheduleNextBuffer_idleEmpty now s :
  idleEmpty s -> idleEmpty (scheduleNextBuffer now s).
Proof.
  intros Hidle. unfold idleEmpty, scheduleNextBuffer.
  rewrite rearm_isPlaying, rearm_audioQueue, rearm_processingBuffer.
  destruct (audioQueue (scheduleLoop _ now s)) as [|f q] eqn:Eq;
    [destruct (processingBuffer (scheduleLoop _ now s)) as [|x pb] eqn:Epb;
       [auto|]|];
    rewrite scheduleLoop_isPlaying; intros Hnp;
    destruct (Hidle Hnp) as [Hq Hpb]; rewrite Hq in *; simpl in *;
    congruence.
Qed.

Lemma step_idleEmpty now e s : idleEmpty s -> idleEmpty (step now e s).
Proof.
  intros H. destruct e; simpl.
  - unfold addPCM16. simpl.
    destruct (isPlaying (ingest chunk s)) eqn:Eplay.
    + intros Hnp. congruence.
    + apply scheduleNextBuffer_idleEmpty. intros Hnp. discriminate Hnp.
  - unfold complete. simpl. destruct (processingBuffer s) as [|x pb] eqn:Epb.
    + intros Hnp. simpl in *. destruct (H Hnp). rewrite Epb. auto.
    + simpl. destruct (isPlaying s) eqn:Eplay.
      * apply scheduleNextBuffer_idleEmpty. intros Hnp. simpl in Hnp. congruence.
      * destruct (H Eplay). congruence.
  - destruct (stop_fields now s) as (_ & _ & Hq & Hpb & _).
    intros _. auto.
  - exact H.
  - unfold addWorkletEnter. destruct (_ !! _); [|destruct (inheritedName _)]; exact H.
  - unfold addWorkletSettle. destruct outcome; [destruct (_ !! _); [|destruct (inheritedName _)]|]; exact H.
  - unfold timerFired. destruct (find _ _) as [t|]; [|exact H].
    destruct (timerHandler t).
    + destruct (_ || _); [|exact H]. apply scheduleNextBuffer_idleEmpty, H.
    + apply scheduleNextBuffer_idleEmpty. exact H.
    + exact H.
  - destruct (sourceEnded_buffers id s) as (Hplay & Hq & _).
    destruct (sourceEnded_content id s) as [_ Hpb].
    unfold idleEmpty. rewrite Hplay, Hq, Hpb. exact H.
Qed.

Lemma run_idleEmpty trace : idleEmpty (run trace construct).
Proof.
  assert (H : forall s, idleEmpty s -> idleEmpty (run trace s)).
  { induction trace as [|te trace IH]; intros s Hs; [exact Hs|].
    apply (IH (step te.1 te.2 s)), step_idleEmpty, Hs. }
  apply H. intros _. auto.
Qed.

(** X6.  In every state the streamer can reach, [isPlaying] is false only
    when the queue and the remainder buffer are both empty: audio that was
    fed and not yet started is never left behind by a scheduler that has
    switched itself off. *)
Theorem idle_streamer_is_empty (trace : list (Q * Event)) :
  isPlaying (run trace construct) = false ->
  audioQueue (run trace construct) = []
  /\ processingBuffer (run trace construct) = [].
Proof. apply run_idleEmpty. Qed.

Lemma idle_streamer_is_empty_witness :
  audioQueue
    (run [(0%Q, AddPCM16 (Uint8Array.of_bytes [Byte.x01; Byte.x00]));
          (0%Q, Complete)] construct) = []
  /\ processingBuffer
       (run [(0%Q, AddPCM16 (Uint8Array.of_bytes [Byte.x01; Byte.x00]));
             (0%Q, Complete)] construct) = [].
Proof.
  apply (idle_streamer_is_empty
           [(0%Q, AddPCM16 (Uint8Array.of_bytes [Byte.x01; Byte.x00]));
            (0%Q, Complete)]).
  vm_compute. reflexivity.
Defined.

(** X7.  Along a trace without [stop()], every frame ever pushed has been
    handed to the device or still waits in the queue, each once and in the
    order of pushing: the buffers of the started sources followed by the
    queue are the pushed frames. *)
Theorem frames_first_in_first_out (trace : list (Q * Event)) :
  noStop trace ->
  pushed (run trace construct)
  = (buffer <$> started (run trace construct))
      ++ audioQueue (run trace construct).
Proof. apply run_accounted. Qed.

Lemma frames_first_in_first_out_witness :
  pushed (run [(0%Q, AddPCM16 (Uint8Array.of_bytes [Byte.x01; Byte.x00]));
               (0.3%Q, Complete)] construct)
  = (buffer <$> started
       (run [(0%Q, AddPCM16 (Uint8Array.of_bytes [Byte.x01; Byte.x00]));
             (0.3%Q, Complete)] construct))
      ++ audioQueue
           (run [(0%Q, AddPCM16 (Uint8Array.of_bytes [Byte.x01; Byte.x00]));
                 (0.3%Q, Complete)] construct).
Proof.
  apply (frames_first_in_first_out
           [(0%Q, AddPCM16 (Uint8Array.of_bytes [Byte.x01; Byte.x00]));
            (0.3%Q, Complete)]).
  repeat constructor; discriminate.
Defined.

(** * What one drain submits *)

Lemma fmap_slot_disarm (l : list AudioBufferSourceNode) old :
  (fun src => (startTime src, buffer src)) <$> alter disarm old l
  = (fun src => (startTime src, buffer src)) <$> l.
Proof.
  apply list_eq. intros i. rewrite !list_lookup_fmap, list_lookup_alter.
  destruct (decide (old = i)) as [->|_]; [|reflexivity].
  destruct (l !! i); reflexivity.
Qed.

Lemma scheduleStep_slot now s s' :
  scheduleStep now s = Some s' ->
  exists audioData,
    audioQueue s = audioData :: audioQueue s'
    /\ slots s' = slots s ++ [(Qmax (scheduledTime s) now, audioData)]
    /\ scheduledTime s'
       = (Qmax (scheduledTime s) now + duration audioData)%Q
    /\ (scheduledTime s < now + SCHEDULE_AHEAD_TIME)%Q.
Proof.
  unfold scheduleStep, slots.
  destruct (audioQueue s) as [|audioData rest]; [discriminate|].
  destruct (Qlt_le_dec _ _) as [Hlt|]; [|discriminate].
  intros [= <-]. exists audioData.
  destruct rest as [|next rest]; simpl.
  - destruct (endOfQueueAudioSource s); simpl;
      rewrite fmap_app, ?fmap_slot_disarm; auto.
  - rewrite fmap_app. auto.
Qed.

Lemma scheduleStep_None now s :
  scheduleStep now s = None ->
  audioQueue s = [] \/ (now + SCHEDULE_AHEAD_TIME <= scheduledTime s)%Q.
Proof.
  unfold scheduleStep. destruct (audioQueue s); [auto|].
  destruct (Qlt_le_dec _ _); [discriminate|auto].
Qed.

Lemma scheduleLoop_drain now fuel : forall s,
  exists new,
    audioQueue s = new.*2 ++ audioQueue (scheduleLoop fuel now s)
    /\ slots (scheduleLoop fuel now s) = slots s ++ new
    /\ backToBack (Qmax (scheduledTime s) now) new
    /\ Forall (inWindow now) new
    /\ scheduledTime (scheduleLoop fuel now s)
       = cursorAfter (scheduledTime s) new.
Proof.
  induction fuel as [|fuel IH]; intros s; simpl.
  - exists []. rewrite app_nil_r. simpl. auto.
  - destruct (scheduleStep now s) as [s1|] eqn:E.
    + apply scheduleStep_slot in E as (audioData & Hq & Hslots & Hcur & Hlt).
      destruct (IH s1) as (new & Hq1 & Hslots1 & Hchain & Hwin & Hcur1).
      pose proof (Q.le_max_r (scheduledTime s) now) as Hnow.
      pose proof (duration_nonneg audioData) as Hdur.
      exists ((Qmax (scheduledTime s) now, audioData) :: new).
      split; [rewrite Hq, Hq1; reflexivity|].
      split; [rewrite Hslots1, Hslots, <- app_assoc; reflexivity|].
      split; [|split].
      * simpl. split; [reflexivity|].
        destruct new as [|slot rest]; [exact I|].
        destruct Hchain as [Hhead Hrest]. split; [|exact Hrest].
        rewrite Hhead, Hcur. apply Q.max_l. lra.
      * constructor; [|exact Hwin]. split; [exact Hnow|]. simpl.
        apply Q.max_lub_lt; [exact Hlt|].
        unfold SCHEDULE_AHEAD_TIME. lra.
      * rewrite Hcur1, Hcur. reflexivity.
    + exists []. rewrite app_nil_r. simpl. auto.
Qed.

(** X8.  A drain takes frames off the front of the queue, in order, and starts
    them back to back: the first at [max(cursor, now)], each next one where
    the one before ends; the cursor is left at the end of the last one. *)
Theorem scheduleNextBuffer_back_to_back (now : Q) (s : AudioStreamer) :
  exists new,
    audioQueue s = new.*2 ++ audioQueue (scheduleNextBuffer now s)
    /\ slots (scheduleNextBuffer now s) = slots s ++ new
    /\ backToBack (Qmax (scheduledTime s) now) new
    /\ scheduledTime (scheduleNextBuffer now s)
       = cursorAfter (scheduledTime s) new.
Proof.
  destruct (scheduleLoop_drain now (length (audioQueue s)) s)
    as (new & Hq & Hslots & Hchain & _ & Hcur).
  exists new. unfold scheduleNextBuffer, slots in *.
  rewrite rearm_audioQueue, rearm_started, rearm_scheduledTime. auto.
Qed.

(** X9.  A drain commits no further ahead than the lookahead window: every
    source it starts begins less than 0.2 s after [now] (and not before
    [now]), and it stops early only when the cursor has reached the end of
    the window. *)
Theorem scheduleNextBuffer_lookahead (now : Q) (s : AudioStreamer) :
  (exists new,
     slots (scheduleNextBuffer now s) = slots s ++ new
     /\ Forall (inWindow now) new)
  /\ (audioQueue (scheduleNextBuffer now s) = []
      \/ (now + SCHEDULE_AHEAD_TIME
          <= scheduledTime (scheduleNextBuffer now s))%Q).
Proof.
  split.
  - destruct (scheduleLoop_drain now (length (audioQueue s)) s)
      as (new & _ & Hslots & _ & Hwin & _).
    exists new. unfold scheduleNextBuffer, slots in *.
    rewrite rearm_started. auto.
  - unfold scheduleNextBuffer.
    rewrite rearm_audioQueue, rearm_scheduledTime.
    apply scheduleStep_None, scheduleLoop_done. reflexivity.
Qed.

(** * The timer table *)

Lemma NoDup_fmap_filter {A B} (f : A -> B) (P : A -> Prop)
    `{!forall x, Decision (P x)} (l : list A) :
  NoDup (f <$> l) -> NoDup (f <$> filter P l).
Proof.
  induction l as [|x l IH]; [auto|].
  rewrite fmap_cons, NoDup_cons. intros [Hx Hl].
  rewrite filter_cons. destruct (decide (P x)); [|auto].
  rewrite fmap_cons, NoDup_cons. split; [|auto].
  intros Hin. apply Hx.
  apply list_elem_of_fmap in Hin as (y & -> & Hy).
  apply list_elem_of_filter in Hy as [_ Hy].
  apply list_elem_of_fmap. eauto.
Qed.

Lemma Forall_filter_keep {A} (P Q : A -> Prop)
    `{!forall x, Decision (Q x)} (l : list A) :
  Forall P l -> Forall P (filter Q l).
Proof.
  rewrite !Forall_forall. intros Hall x Hx.
  apply list_elem_of_filter in Hx as [_ Hx]. auto.
Qed.

Lemma NoDup_fmap_unique {A B} (f : A -> B) (l : list A) x y :
  NoDup (f <$> l) -> x ∈ l -> y ∈ l -> f x = f y -> x = y.
Proof.
  induction l as [|z l IH]; intros Hnd Hx Hy Hf.
  - inversion Hx.
  - rewrite fmap_cons, NoDup_cons in Hnd. destruct Hnd as [Hz Hl].
    apply elem_of_cons in Hx as [->|Hx], Hy as [->|Hy]; auto.
    + exfalso. apply Hz. rewrite Hf. apply list_elem_of_fmap. eauto.
    + exfalso. apply Hz. rewrite <- Hf. apply list_elem_of_fmap. eauto.
Qed.

Lemma find_timer (l : list Timer) id t :
  List.find (fun t => timerId t =? id) l = Some t ->
  t ∈ l /\ timerId t = id.
Proof.
  intros H. apply find_some in H as [Hin Hid].
  split; [apply list_elem_of_In, Hin|apply Nat.eqb_eq, Hid].
Qed.

Lemma timersWf_same s s' :
  timers s' = timers s ->
  nextTimerId s' = nextTimerId s ->
  checkInterval s' = checkInterval s ->
  timersWf s -> timersWf s'.
Proof. unfold timersWf. intros -> -> ->. auto. Qed.

Lemma timers_fresh s t :
  Forall (fun t => 0 < timerId t < nextTimerId s) (timers s) ->
  t ∈ timers s -> timerId t <> nextTimerId s.
Proof.
  rewrite Forall_forall. intros Hall Ht.
  apply Hall in Ht. lia.
Qed.

Lemma setTimer_ids h delay s :
  0 < nextTimerId s ->
  NoDup (timerId <$> timers s) ->
  Forall (fun t => 0 < timerId t < nextTimerId s) (timers s) ->
  NoDup (timerId <$> timers (setTimer h delay s).2)
  /\ Forall (fun t => 0 < timerId t < nextTimerId (setTimer h delay s).2)
            (timers (setTimer h delay s).2).
Proof.
  intros Hpos Hnd Hall. unfold setTimer. simpl. split.
  - rewrite fmap_app. apply NoDup_app. split; [exact Hnd|]. split.
    + intros id Hin Hnew. apply list_elem_of_fmap in Hin as (t & -> & Ht).
      apply list_elem_of_singleton in Hnew.
      apply (timers_fresh s t Hall Ht Hnew).
    + apply NoDup_singleton.
  - apply Forall_app. split.
    + eapply Forall_impl; [exact Hall|]. intros t Ht. simpl in *. lia.
    + constructor; [|constructor]. simpl. lia.
Qed.

(** A new timeout that is not a poll interval. *)
Lemma setTimer_timersWf h delay s :
  h <> PollForData -> timersWf s -> timersWf (setTimer h delay s).2.
Proof.
  intros Hh (Hpos & Hnd & Hall & Hpoll & Hcheck).
  destruct (setTimer_ids h delay s Hpos Hnd Hall) as [Hnd' Hall'].
  split; [unfold setTimer; simpl; lia|].
  split; [exact Hnd'|]. split; [exact Hall'|].
  unfold setTimer. simpl. split.
  - intros t Ht Hp. apply elem_of_app in Ht as [Ht|Ht]; [auto|].
    apply list_elem_of_singleton in Ht. subst t. simpl in Hp. congruence.
  - intros id Hid. destruct (Hcheck id Hid) as (t & Ht & Htid & Hth).
    exists t. split; [apply elem_of_app; auto|auto].
Qed.

(** Arming the poll interval when none is armed. *)
Lemma armPoll_timersWf s :
  checkInterval s = None ->
  timersWf s ->
  timersWf (with_checkInterval (Some (setTimer PollForData 100%Q s).1)
              (setTimer PollForData 100%Q s).2).
Proof.
  intros Hnone (Hpos & Hnd & Hall & Hpoll & Hcheck).
  destruct (setTimer_ids PollForData 100%Q s Hpos Hnd Hall) as [Hnd' Hall'].
  split; [unfold setTimer; simpl; lia|].
  split; [exact Hnd'|]. split; [exact Hall'|].
  unfold setTimer. simpl. split.
  - intros t Ht Hp. apply elem_of_app in Ht as [Ht|Ht].
    + specialize (Hpoll t Ht Hp). congruence.
    + apply list_elem_of_singleton in Ht. subst t. reflexivity.
  - intros id [= <-]. eexists. split; [apply elem_of_app; right; constructor|].
    auto.
Qed.

(** Clearing the poll interval. *)
Lemma clearPoll_timersWf id s :
  checkInterval s = Some id ->
  timersWf s ->
  timersWf (with_checkInterval None (clearTimer id s)).
Proof.
  intros Hid (Hpos & Hnd & Hall & Hpoll & Hcheck).
  unfold timersWf, clearTimer. simpl.
  split; [exact Hpos|]. split; [apply NoDup_fmap_filter, Hnd|].
  split; [apply Forall_filter_keep, Hall|]. split.
  - intros t Ht Hp. apply list_elem_of_filter in Ht as [Hne Ht].
    specialize (Hpoll t Ht Hp). congruence.
  - intros id' [=].
Qed.

(** A timeout that is not a poll interval leaves the table. *)
Lemma clearTimeout_timersWf t s :
  t ∈ timers s ->
  timerHandler t <> PollForData ->
  timersWf s ->
  timersWf (clearTimer (timerId t) s).
Proof.
  intros Ht Hh (Hpos & Hnd & Hall & Hpoll & Hcheck).
  unfold timersWf, clearTimer. simpl.
  split; [exact Hpos|]. split; [apply NoDup_fmap_filter, Hnd|].
  split; [apply Forall_filter_keep, Hall|]. split.
  - intros t' Ht' Hp. apply list_elem_of_filter in Ht' as [_ Ht']. auto.
  - intros id Hid. destruct (Hcheck id Hid) as (tp & Htp & Htid & Hth).
    exists tp. split; [|auto]. apply list_elem_of_filter. split; [|exact Htp].
    intros Heq. apply Hh.
    rewrite <- (NoDup_fmap_unique timerId (timers s) tp t Hnd Htp Ht Heq).
    exact Hth.
Qed.

Lemma rearm_timersWf now s : timersWf s -> timersWf (rearm now s).
Proof.
  intros Hwf. unfold rearm.
  destruct (audioQueue s) as [|f q];
    [destruct (processingBuffer s) as [|x pb]|];
    try (apply setTimer_timersWf; [discriminate|exact Hwf]).
  destruct (isStreamComplete s).
  - simpl. destruct (checkInterval s) as [id|] eqn:Hid.
    + eapply timersWf_same;
        [| | |apply (clearPoll_timersWf id s Hid Hwf)]; reflexivity.
    + eapply timersWf_same; [| | |exact Hwf]; auto.
  - destruct (checkInterval s) as [id|] eqn:Hid; [exact Hwf|].
    apply (armPoll_timersWf s Hid Hwf).
Qed.

(** After the part of the drain that follows the loop, a playing streamer
    has a drain trigger pending. *)
Lemma rearm_drainArmed now s : timersWf s -> drainArmed (rearm now s).
Proof.
  intros (_ & _ & _ & _ & Hcheck). unfold drainArmed.
  rewrite rearm_isPlaying. unfold rearm, drainTrigger.
  assert (Hnew : forall delay,
            Exists drainTrigger
              (timers (setTimer Reschedule delay s).2)).
  { intros delay. unfold setTimer. simpl.
    apply Exists_app. right. constructor. right. reflexivity. }
  destruct (audioQueue s) as [|f q];
    [destruct (processingBuffer s) as [|x pb]|];
    try (intros _; apply Hnew).
  destruct (isStreamComplete s); [discriminate|].
  intros _. destruct (checkInterval s) as [id|] eqn:Hid.
  - destruct (Hcheck id eq_refl) as (t & Ht & _ & Hth).
    apply Exists_exists. exists t. split; [exact Ht|left; exact Hth].
  - unfold setTimer. simpl. apply Exists_app. right. constructor. left.
    reflexivity.
Qed.

Lemma scheduleStep_nextTimerId now s s' :
  scheduleStep now s = Some s' -> nextTimerId s' = nextTimerId s.
Proof. frame_step. Qed.

Lemma scheduleLoop_timers now fuel s :
  timers (scheduleLoop fuel now s) = timers s
  /\ nextTimerId (scheduleLoop fuel now s) = nextTimerId s
  /\ checkInterval (scheduleLoop fuel now s) = checkInterval s.
Proof.
  apply (scheduleLoop_invariant
           (fun s' => timers s' = timers s
                      /\ nextTimerId s' = nextTimerId s
                      /\ checkInterval s' = checkInterval s)); [|auto].
  intros s1 s2 E (<- & <- & <-).
  split; [eapply scheduleStep_timers, E|].
  split; [eapply scheduleStep_nextTimerId, E|eapply scheduleStep_checkInterval, E].
Qed.

Lemma scheduleNextBuffer_timers now s :
  timersWf s ->
  timersWf (scheduleNextBuffer now s) /\ drainArmed (scheduleNextBuffer now s).
Proof.
  intros Hwf. unfold scheduleNextBuffer.
  destruct (scheduleLoop_timers now (length (audioQueue s)) s)
    as (Ht & Hn & Hc).
  assert (Hloop : timersWf (scheduleLoop (length (audioQueue s)) now s))
    by (eapply timersWf_same; [exact Ht|exact Hn|exact Hc|exact Hwf]).
  split; [apply rearm_timersWf, Hloop|apply rearm_drainArmed, Hloop].
Qed.

Lemma sliceFrames_timers s :
  timers (sliceFrames s) = timers s
  /\ nextTimerId (sliceFrames s) = nextTimerId s
  /\ checkInterval (sliceFrames s) = checkInterval s.
Proof.
  unfold sliceFrames.
  apply (sliceLoop_invariant
           (fun s' => timers s' = timers s
                      /\ nextTimerId s' = nextTimerId s
                      /\ checkInterval s' = checkInterval s)); [|auto].
  intros s1 s2 E (<- & <- & <-). apply sliceStep_Some in E as [_ ->]. auto.
Qed.

Lemma ingest_timers chunk s :
  timers (ingest chunk s) = timers s
  /\ nextTimerId (ingest chunk s) = nextTimerId s
  /\ checkInterval (ingest chunk s) = checkInterval s.
Proof.
  unfold ingest. destruct (decodePCM16 chunk).
  match goal with |- context [sliceFrames ?x] =>
    destruct (sliceFrames_timers x) as (-> & -> & ->) end.
  auto.
Qed.

Lemma sourceEnded_timers id s :
  timers (sourceEnded id s) = timers s
  /\ nextTimerId (sourceEnded id s) = nextTimerId s
  /\ checkInterval (sourceEnded id s) = checkInterval s.
Proof.
  unfold sourceEnded. destruct (started s !! id) as [src|]; [|auto].
  destruct (ended src); [auto|]. destruct (_ && _); auto.
Qed.

Lemma stop_timersWf now s : timersWf s -> timersWf (stop now s).
Proof.
  intros Hwf. unfold stop. cbv zeta.
  apply setTimer_timersWf; [discriminate|].
  match goal with |- timersWf (with_gainEvents _ ?x) =>
    apply (timersWf_same x); [reflexivity|reflexivity|reflexivity|] end.
  cbn [checkInterval with_scheduledTime with_processingBuffer with_audioQueue
       with_isStreamComplete with_isPlaying].
  destruct (checkInterval s) as [id|] eqn:Hid.
  - eapply timersWf_same;
      [| | |apply (clearPoll_timersWf id s Hid Hwf)]; reflexivity.
  - eapply timersWf_same; [| | |exact Hwf]; reflexivity.
Qed.

Lemma step_timers now e s :
  timersWf s /\ drainArmed s ->
  timersWf (step now e s) /\ drainArmed (step now e s).
Proof.
  intros [Hwf Harmed]. destruct e; simpl.
  - unfold addPCM16. simpl.
    destruct (ingest_timers chunk s) as (Ht & Hn & Hc).
    assert (Hin : timersWf (ingest chunk s))
      by (eapply timersWf_same; [exact Ht|exact Hn|exact Hc|exact Hwf]).
    destruct (isPlaying (ingest chunk s)) eqn:Eplay.
    + split; [exact Hin|]. unfold drainArmed. rewrite Ht.
      rewrite ingest_isPlaying in *. exact Harmed.
    + apply scheduleNextBuffer_timers.
      eapply timersWf_same; [| | |exact Hin]; reflexivity.
  - unfold complete. simpl. destruct (processingBuffer s) as [|x pb].
    + split; [eapply timersWf_same; [| | |exact Hwf]; reflexivity|exact Harmed].
    + simpl. destruct (isPlaying s) eqn:Eplay.
      * apply scheduleNextBuffer_timers.
        eapply timersWf_same; [| | |exact Hwf]; reflexivity.
      * split; [eapply timersWf_same; [| | |exact Hwf]; reflexivity|].
        unfold drainArmed. simpl. congruence.
  - split; [apply stop_timersWf, Hwf|].
    destruct (stop_fields now s) as (Hplay & _).
    unfold drainArmed. congruence.
  - split; [eapply timersWf_same; [| | |exact Hwf]; reflexivity|exact Harmed].
  - unfold addWorkletEnter. destruct (_ !! _); [|destruct (inheritedName _)];
      (split; [eapply timersWf_same; [| | |exact Hwf]; reflexivity|exact Harmed]).
  - unfold addWorkletSettle. destruct outcome; [destruct (_ !! _); [|destruct (inheritedName _)]|];
      (split; [eapply timersWf_same; [| | |exact Hwf]; reflexivity|exact Harmed]).
  - unfold timerFired. destruct (find _ _) as [t|] eqn:Efind; [|auto].
    apply find_timer in Efind as [Ht <-].
    destruct (timerHandler t) eqn:Eh.
    + destruct (_ || _); [|auto]. apply scheduleNextBuffer_timers, Hwf.
    + apply scheduleNextBuffer_timers.
      apply (clearTimeout_timersWf t s Ht); [congruence|exact Hwf].
    + split.
      * eapply timersWf_same;
          [| | |apply (clearTimeout_timersWf t s Ht); [congruence|exact Hwf]];
          reflexivity.
      * unfold drainArmed, clearTimer. simpl. intros Hplay.
        apply Exists_exists in Harmed as (t' & Ht' & Htrig); [|exact Hplay].
        apply Exists_exists. exists t'. split; [|exact Htrig].
        apply list_elem_of_filter. split; [|exact Ht'].
        intros Heq. destruct Hwf as (_ & Hnd & _).
        rewrite (NoDup_fmap_unique timerId (timers s) t' t Hnd Ht' Ht Heq)
          in Htrig.
        destruct Htrig; congruence.
  - destruct (sourceEnded_timers id s) as (Ht & Hn & Hc).
    destruct (sourceEnded_buffers id s) as (Hplay & _).
    split; [eapply timersWf_same; [exact Ht|exact Hn|exact Hc|exact Hwf]|].
    unfold drainArmed. rewrite Ht, Hplay. exact Harmed.
Qed.

Lemma run_timers trace : forall s,
  timersWf s /\ drainArmed s ->
  timersWf (run trace s) /\ drainArmed (run trace s).
Proof.
  induction trace as [|te trace IH]; intros s Hs; [exact Hs|].
  apply (IH (step te.1 te.2 s)), step_timers, Hs.
Qed.

Lemma construct_timers : timersWf construct /\ drainArmed construct.
Proof.
  split.
  - unfold timersWf. simpl. split; [lia|]. split; [constructor|].
    split; [constructor|]. split.
    + intros t Ht. inversion Ht.
    + intros id [=].
  - intros [=].
Qed.

(** X10.  In every state the streamer can reach, timer handles are positive and
    distinct, and the poll intervals in the timer table are exactly the one
    [checkInterval] names: there are never two of them, and
    [clearInterval(this.checkInterval)] always hits a live one. *)
Theorem run_timersWf (trace : list (Q * Event)) :
  timersWf (run trace construct)
  /\ (forall t1 t2,
        t1 ∈ timers (run trace construct) ->
        t2 ∈ timers (run trace construct) ->
        timerHandler t1 = PollForData ->
        timerHandler t2 = PollForData -> t1 = t2).
Proof.
  destruct (run_timers trace construct construct_timers) as [Hwf _].
  split; [exact Hwf|].
  destruct Hwf as (_ & Hnd & _ & Hpoll & _).
  intros t1 t2 H1 H2 Hp1 Hp2.
  apply (NoDup_fmap_unique timerId _ t1 t2 Hnd H1 H2).
  pose proof (Hpoll t1 H1 Hp1). pose proof (Hpoll t2 H2 Hp2). congruence.
Qed.

Lemma run_timersWf_witness :
  checkInterval (run [(0%Q, AddPCM16 (Uint8Array.of_bytes []))] construct)
  = Some 1.
Proof.
  destruct (run_timersWf [(0%Q, AddPCM16 (Uint8Array.of_bytes []))])
    as [(_ & _ & _ & Hpoll & _) _].
  apply (Hpoll (mkTimer 1 PollForData 100%Q)); [|reflexivity].
  vm_compute. constructor.
Defined.

(** X11.  In every state the streamer can reach, frames wait in the queue only
    while the streamer is playing, and while it is playing a timer that
    runs the drain (the re-arm timeout or the poll interval) is pending:
    queued audio is never left without something to start it. *)
Theorem run_drainArmed (trace : list (Q * Event)) :
  (isPlaying (run trace construct) = true ->
   Exists drainTrigger (timers (run trace construct)))
  /\ (audioQueue (run trace construct) <> [] ->
      isPlaying (run trace construct) = true
      /\ Exists drainTrigger (timers (run trace construct))).
Proof.
  destruct (run_timers trace construct construct_timers) as [_ Harmed].
  split; [exact Harmed|].
  intros Hq.
  destruct (isPlaying (run trace construct)) eqn:Eplay.
  - split; [reflexivity|apply Harmed, Eplay].
  - destruct (run_idleEmpty trace Eplay) as [Hq' _]. contradiction.
Qed.

Lemma run_drainArmed_witness :
  Exists drainTrigger
    (timers (run [(0%Q, AddPCM16 (Uint8Array.of_bytes [Byte.x01; Byte.x00]))]
               construct)).
Proof.
  apply (proj1 (run_drainArmed
                  [(0%Q, AddPCM16 (Uint8Array.of_bytes [Byte.x01; Byte.x00]))])).
  vm_compute. reflexivity.
Defined.

(** * Decode faults seen from [addPCM16] *)

Lemma scheduleStep_consoleErrors now s s' :
  scheduleStep now s = Some s' -> consoleErrors s' = consoleErrors s.
Proof. frame_step. Qed.

Lemma rearm_consoleErrors now s : consoleErrors (rearm now s) = consoleErrors s.
Proof. frame_rearm. Qed.

Lemma scheduleNextBuffer_consoleErrors now s :
  consoleErrors (scheduleNextBuffer now s) = consoleErrors s.
Proof.
  unfold scheduleNextBuffer. rewrite rearm_consoleErrors.
  apply (scheduleLoop_invariant
           (fun s' => consoleErrors s' = consoleErrors s)); [|reflexivity].
  intros s1 s2 E <-. eapply scheduleStep_consoleErrors, E.
Qed.

(** X3.  [addPCM16] logs an error, and never raises one, exactly when the
    chunk has an odd number of bytes and spans its whole buffer; every
    other chunk that lies inside its buffer is decoded without a fault. *)
Theorem addPCM16_consoleErrors (now : Q) (chunk : Uint8Array.t)
    (s : AudioStreamer) :
  Uint8Array.wf chunk ->
  consoleErrors (addPCM16 now chunk s)
  = consoleErrors s
    + (if Nat.odd (Uint8Array.length chunk)
          && (length (Uint8Array.buffer chunk) =? Uint8Array.length chunk)
       then 1 else 0).
Proof.
  intros Hwf. unfold Uint8Array.wf in Hwf.
  pose proof (decodePCM16_faults chunk ltac:(lia)) as Hfaults.
  unfold decodeFaults in Hfaults.
  assert (Hin : consoleErrors (ingest chunk s)
                = consoleErrors s + (decodePCM16 chunk).2).
  { unfold ingest. destruct (decodePCM16 chunk) as [float32Array errors].
    rewrite sliceFrames_consoleErrors. reflexivity. }
  rewrite <- Hfaults, <- Hin. unfold addPCM16. simpl.
  destruct (isPlaying (ingest chunk s)); [reflexivity|].
  rewrite scheduleNextBuffer_consoleErrors. reflexivity.
Qed.

Lemma addPCM16_consoleErrors_witness :
  consoleErrors
    (addPCM16 0 (Uint8Array.of_bytes [Byte.x01; Byte.x00; Byte.x02]) construct)
  = 1.
Proof.
  refine (addPCM16_consoleErrors 0
            (Uint8Array.of_bytes [Byte.x01; Byte.x00; Byte.x02]) construct _).
  unfold Uint8Array.wf. simpl. lia.
Defined.

(** * More on the worklet registry *)

Lemma addWorkletEnter_registered workletName handler s graph :
  registry s !! workletName = Some graph ->
  (addWorkletEnter workletName handler s).2 = ReturnedThis
  /\ registry (addWorkletEnter workletName handler s).1 !! workletName
     = Some (mkGraph (handlers graph ++ [handler]) (node graph))
  /\ consoleErrors (addWorkletEnter workletName handler s).1 = consoleErrors s.
Proof.
  unfold registry, addWorkletEnter. intros H. rewrite H. simpl.
  rewrite lookup_insert_eq. auto.
Qed.

Lemma enterAll_registered workletName later : forall s graph,
  registry s !! workletName = Some graph ->
  registry (enterAll workletName later s) !! workletName
  = Some (mkGraph (handlers graph ++ later) (node graph)).
Proof.
  induction later as [|handler later IH]; intros s graph H.
  - simpl. rewrite app_nil_r. destruct graph. exact H.
  - destruct (addWorkletEnter_registered workletName handler s graph H)
      as (_ & H1 & _).
    change (enterAll workletName (handler :: later) s)
      with (enterAll workletName later (addWorkletEnter workletName handler s).1).
    rewrite (IH _ _ H1). simpl. rewrite <- app_assoc. reflexivity.
Qed.

(** X12.  Handlers registered for a name while its module is still loading
    are not lost.  For a name that is not registered and is not a property
    name the registry object inherits, the first call goes on to load, and
    when the load settles the entry holds the first handler and all later
    ones in the order of the calls, with the node if the load succeeded and
    without one if it failed. *)
Theorem addWorklet_during_load (workletName : string)
    (handler : MessageHandler) (later : list MessageHandler)
    (outcome : LoadOutcome) (s : AudioStreamer) :
  registry s !! workletName = None ->
  inheritedName workletName = false ->
  (addWorkletEnter workletName handler s).2 = Loading
  /\ registry
       (addWorkletSettle workletName outcome
          (enterAll workletName later
             (addWorkletEnter workletName handler s).1)).1 !! workletName
     = Some (mkGraph (handler :: later)
               match outcome with
               | Loaded worklet => Some worklet
               | LoadFailed => None
               end)
  /\ (addWorkletSettle workletName outcome
        (enterAll workletName later
           (addWorkletEnter workletName handler s).1)).2
     = match outcome with Loaded _ => Resolved | LoadFailed => Rejected end.
Proof.
  intros Hnew Hinh.
  assert (H1 : registry (addWorkletEnter workletName handler s).1 !! workletName
               = Some (mkGraph [handler] None)).
  { unfold registry, addWorkletEnter in *. rewrite Hnew, Hinh. simpl.
    apply lookup_insert_eq. }
  split;
    [unfold registry, addWorkletEnter in *; rewrite Hnew, Hinh; reflexivity|].
  pose proof (enterAll_registered workletName later _ _ H1) as H2.
  simpl in H2. unfold registry, addWorkletSettle in *.
  destruct outcome as [worklet|]; [|auto].
  rewrite H2. simpl. rewrite lookup_insert_eq. auto.
Qed.

Lemma addWorklet_during_load_witness :
  registry
    (addWorkletSettle "vumeter-out" (Loaded 3)
       (enterAll "vumeter-out" [8; 9]
          (addWorkletEnter "vumeter-out" 7 construct).1)).1 !! "vumeter-out"
  = Some (mkGraph [7; 8; 9] (Some 3)).
Proof.
  exact (proj1 (proj2 (addWorklet_during_load "vumeter-out" 7 [8; 9]
                         (Loaded 3) construct eq_refl eq_refl))).
Defined.

Lemma registerAll_registered workletName calls : forall s graph,
  registry s !! workletName = Some graph ->
  registry (registerAll workletName calls s) !! workletName
  = Some (mkGraph (handlers graph ++ calls.*1) (node graph))
  /\ consoleErrors (registerAll workletName calls s) = consoleErrors s.
Proof.
  induction calls as [|call calls IH]; intros s graph H.
  - simpl. rewrite app_nil_r. destruct graph. auto.
  - change (registerAll workletName (call :: calls) s)
      with (registerAll workletName calls
              (addWorklet workletName call.1 call.2 s).1).
    rewrite (addWorklet_registered _ call.1 call.2 _ _ H).
    match goal with |- context [registerAll _ calls ?x] =>
      destruct (IH x (mkGraph (handlers graph ++ [call.1]) (node graph)))
        as [-> ->] end.
    + unfold registry. simpl. apply lookup_insert_eq.
    + simpl. rewrite <- app_assoc. auto.
Qed.

(** X13.  A load that failed is never tried again.  For a name that is
    not registered and is not a property name the registry object
    inherits: after a failed load, every later call of [addWorklet] for
    that name, however its own load would end, only appends its handler;
    the entry never gets a node and no further error is logged. *)
Theorem addWorklet_failed_never_retried (workletName : string)
    (handler : MessageHandler) (calls : list (MessageHandler * LoadOutcome))
    (s : AudioStreamer) :
  registry s !! workletName = None ->
  inheritedName workletName = false ->
  registry (registerAll workletName calls
              (addWorklet workletName handler LoadFailed s).1) !! workletName
  = Some (mkGraph (handler :: calls.*1) None)
  /\ consoleErrors (registerAll workletName calls
                      (addWorklet workletName handler LoadFailed s).1)
     = S (consoleErrors s).
Proof.
  intros Hnew Hinh. rewrite (addWorklet_new _ _ _ _ Hnew Hinh). simpl.
  match goal with |- context [registerAll _ _ ?x] =>
    destruct (registerAll_registered workletName calls x
                (mkGraph [handler] None)) as [-> ->] end.
  - unfold registry. simpl. apply lookup_insert_eq.
  - auto.
Qed.

Lemma addWorklet_failed_never_retried_witness :
  registry
    (registerAll "vumeter-out" [(8, Loaded 3); (9, LoadFailed)]
       (addWorklet "vumeter-out" 7 LoadFailed construct).1) !! "vumeter-out"
  = Some (mkGraph [7; 8; 9] None).
Proof.
  exact (proj1 (addWorklet_failed_never_retried "vumeter-out" 7
                  [(8, Loaded 3); (9, LoadFailed)] construct eq_refl eq_refl)).
Defined.
